(** * CPU scheduler simulator: FCFS, SJF and Round-Robin engines

    A shallow embedding of [include/process.h], [include/FCFS.h],
    [include/SJF.h] and [include/RR.h], followed by the properties of the
    three dispatch engines.

    A C [int] is embedded as a [Z] within [INT_MIN .. INT_MAX]: signed
    overflow is undefined in C, and a call whose arithmetic leaves the range
    ends in [Overflow].  A store outside a fixed buffer ([result_sjf[5]],
    the local [result[5]] of [RR], the [gantt] buffer of [t] records) is
    undefined as well, and ends the call in [OutOfBounds]. *)

From Stdlib Require Import ZArith List Bool Lia Permutation.
Import ListNotations.
Open Scope Z_scope.

Set Implicit Arguments.

(** ** process.h *)

(** [struct Process].  The eight fields of process.h, in declaration order,
    followed by [turnaround] and [response]: SJF.h assigns [temp->turnaround]
    and [temp->response], which the process.h at hand does not declare. *)
Record Process : Type := mkProcess {
  processID  : Z;
  arrival    : Z;
  burst      : Z;
  remain     : Z;
  prioity    : Z;
  waiting    : Z;
  timeout    : Z;
  execute    : Z;
  turnaround : Z;
  response   : Z
}.

Definition set_remain (x : Process) (v : Z) : Process :=
  mkProcess (processID x) (arrival x) (burst x) v (prioity x)
            (waiting x) (timeout x) (execute x) (turnaround x) (response x).

Definition set_waiting (x : Process) (v : Z) : Process :=
  mkProcess (processID x) (arrival x) (burst x) (remain x) (prioity x)
            v (timeout x) (execute x) (turnaround x) (response x).

Definition set_timeout (x : Process) (v : Z) : Process :=
  mkProcess (processID x) (arrival x) (burst x) (remain x) (prioity x)
            (waiting x) v (execute x) (turnaround x) (response x).

Definition set_execute (x : Process) (v : Z) : Process :=
  mkProcess (processID x) (arrival x) (burst x) (remain x) (prioity x)
            (waiting x) (timeout x) v (turnaround x) (response x).

Definition set_turnaround (x : Process) (v : Z) : Process :=
  mkProcess (processID x) (arrival x) (burst x) (remain x) (prioity x)
            (waiting x) (timeout x) (execute x) v (response x).

Definition set_response (x : Process) (v : Z) : Process :=
  mkProcess (processID x) (arrival x) (burst x) (remain x) (prioity x)
            (waiting x) (timeout x) (execute x) (turnaround x) v.

(** ** Failures *)

(** The first four are the error kinds of the specification; the engines at
    hand raise none of [InvalidInput], [InvalidQuantum] and [NoData].
    [NullPointer] is a dereference of [temp] while it is [NULL];
    [OutOfBounds] is a read of [p[i]] past the caller's array or a store
    outside [result_sjf], [result] or [gantt]; [Overflow] is an [int]
    expression whose value is outside [INT_MIN .. INT_MAX]. *)
Inductive error : Type :=
| InvalidInput
| InvalidQuantum
| EmptyQueue
| NoData
| NullPointer
| OutOfBounds
| Overflow.

Definition Err (A : Type) : Type := (error + A)%type.

Definition ret {A : Type} (a : A) : Err A := inr a.

Definition raise {A : Type} (e : error) : Err A := inl e.

Definition bind {A B : Type} (m : Err A) (k : A -> Err B) : Err B :=
  match m with
  | inl e => inl e
  | inr a => k a
  end.

Notation "x <- m ;; k" := (bind m (fun x => k))
  (at level 61, m at next level, right associativity).
Notation "' pat <- m ;; k" :=
  (bind m (fun x => match x with pat => k end))
  (at level 61, pat pattern, m at next level, right associativity).

(** ** C integers and buffers *)

Definition INT_MIN : Z := -2147483648.

Definition INT_MAX : Z := 2147483647.

(** The value of an [int] expression. *)
Definition as_int (v : Z) : Err Z :=
  if (INT_MIN <=? v) && (v <=? INT_MAX) then ret v else raise Overflow.

(** Whether a buffer of [cap] records has a slot [i]; [None] is a buffer
    whose size is not known. *)
Definition has_slot (cap : option Z) (i : Z) : bool :=
  (0 <=? i)
  && match cap with
     | None => true
     | Some c => i <? c
     end.

(** [a[i] = x] on a buffer of [cap] records.  The engines store at the next
    free index only ([result[terminate++]], [gantt[time++]], the index
    counting the stores made so far), so the buffer is the list of the
    records stored so far and the store appends. *)
Definition store (cap : option Z) (a : list Process) (i : Z)
           (x : Process) : Err (list Process) :=
  if has_slot cap i then ret (a ++ [x]) else raise OutOfBounds.

(** ** queue.h and compare.h *)

Module Queue.

(** Modelled from the spec: queue.h is missing.  The OrderedQueue of the
    specification: a queue of ProcessRecord values, [push] at the back,
    [popFront] and [peekFront] failing with [EmptyQueue] if there is none,
    [isEmpty], and [reorder], a stable sort by a comparator.  FCFS.h and
    RR.h call these [enqueue], [dequeue], [peek], [is_empty_q] and [sort];
    SJF.h calls the first three [timeout], [dispatch] and [check]. *)
Definition QueueType : Type := list Process.

Definition init_queue : QueueType := [].

Definition is_empty_q (q : QueueType) : bool :=
  match q with
  | [] => true
  | _ :: _ => false
  end.

Definition enqueue (q : QueueType) (x : Process) : QueueType := q ++ [x].

Definition dequeue (q : QueueType) : Err (Process * QueueType) :=
  match q with
  | [] => raise EmptyQueue
  | x :: q' => ret (x, q')
  end.

(** [peek], with what it does on an empty queue as the parameter
    [on_empty]. *)
Definition peek_or (on_empty : Err Process) (q : QueueType) : Err Process :=
  match q with
  | [] => on_empty
  | x :: _ => ret x
  end.

Definition peek : QueueType -> Err Process := peek_or (raise EmptyQueue).

Definition timeout : QueueType -> Process -> QueueType := enqueue.
Definition dispatch : QueueType -> Err (Process * QueueType) := dequeue.
Definition check : QueueType -> Err Process := peek.

(** Stable insertion: [x] goes in front of the first element that does not
    compare below it, so it stays ahead of the equal elements it preceded. *)
Fixpoint insert (cmp : Process -> Process -> Z) (x : Process)
         (q : QueueType) : QueueType :=
  match q with
  | [] => [x]
  | y :: q' => if cmp x y <=? 0 then x :: y :: q' else y :: insert cmp x q'
  end.

Definition sort (q : QueueType) (cmp : Process -> Process -> Z) : QueueType :=
  fold_right (insert cmp) [] q.

End Queue.

(** Modelled from the spec: compare.h is missing.  The by-arrival-ascending
    comparator of the pending queue, written in the shape of
    [compare_for_SJF]. *)
Definition compare_for_arrival (A B : Process) : Z :=
  (if arrival A >? arrival B then 1 else 0)
  - (if arrival A <? arrival B then 1 else 0).

(** SJF.h, [compare_for_SJF]:
    [(A->burst > B->burst) - (A->burst < B->burst)]. *)
Definition compare_for_SJF (A B : Process) : Z :=
  (if burst A >? burst B then 1 else 0)
  - (if burst A <? burst B then 1 else 0).

(** The by-remaining-burst-ascending comparator that the specification asks
    of the SJF ready queue; the source has no such function. *)
Definition compare_by_remain (A B : Process) : Z :=
  (if remain A >? remain B then 1 else 0)
  - (if remain A <? remain B then 1 else 0).

(** ** Engine state *)

(** The locals of an engine call.  [result] is the result buffer of the
    engine and [gantt] the chart buffer of [RR], each as the list of the
    records stored so far. *)
Record State : Type := mkState {
  pre              : Queue.QueueType;
  ready            : Queue.QueueType;
  temp             : option Process;
  time             : Z;
  terminate        : Z;
  result           : list Process;
  total_turnaround : Z;
  total_waiting    : Z;
  total_response   : Z;
  gantt            : list Process
}.

Definition is_null (t : option Process) : bool :=
  match t with
  | None => true
  | Some _ => false
  end.

(** [for (i = 0; i < n; i++) enqueue(&pre, p[i]);] *)
Fixpoint load (p : list Process) (i : nat) (count : nat)
         (q : Queue.QueueType) : Err Queue.QueueType :=
  match count with
  | O => ret q
  | S count' =>
      match nth_error p i with
      | None => raise OutOfBounds
      | Some x => load p (S i) count' (Queue.enqueue q x)
      end
  end.

(** [while (terminate < n) { body }]: [None] when the fuel runs out while the
    guard still holds. *)
Fixpoint while (body : State -> Err State) (n : Z) (fuel : nat)
         (s : State) : option (Err State) :=
  if terminate s <? n then
    match fuel with
    | O => None
    | S fuel' =>
        match body s with
        | inl e => Some (inl e)
        | inr s' => while body n fuel' s'
        end
    end
  else Some (inr s).

(** The state at the head of the loop after [k] passes through the body,
    with the guard checked before each pass. *)
Fixpoint ticks (body : State -> Err State) (n : Z) (k : nat)
         (s : State) : Err State :=
  match k with
  | O => ret s
  | S k' =>
      if terminate s <? n then s' <- body s ;; ticks body n k' s'
      else ret s
  end.

(** The arrival block shared verbatim by FCFS.h (l.81-87) and RR.h
    (l.84-90): one [if], so at most one record moves per pass. *)
Definition arrive (s : State) : Err State :=
  if negb (Queue.is_empty_q (pre s)) then
    f <- Queue.peek (pre s) ;;
    if arrival f =? time s then
      ' (x, pre') <- Queue.dequeue (pre s) ;;
      ret (mkState pre' (Queue.enqueue (ready s) x) (temp s)
                   (time s) (terminate s) (result s) (total_turnaround s)
                   (total_waiting s) (total_response s) (gantt s))
    else ret s
  else ret s.

(** [time++] (FCFS.h l.99) and [time_flow++] (SJF.h l.103). *)
Definition tick (s : State) : Err State :=
  v <- as_int (time s + 1) ;;
  ret (mkState (pre s) (ready s) (temp s) v (terminate s)
               (result s) (total_turnaround s) (total_waiting s)
               (total_response s) (gantt s)).

(** The progress block shared by FCFS.h (l.102-116) and RR.h (l.121-134),
    with the size of the result buffer as the parameter [cap].  FCFS.h
    stores at [result_index] and counts [terminate] beside it; the two
    start at 0 and move together, so [terminate] stands for both. *)
Definition progress (cap : option Z) (s : State) : Err State :=
  match temp s with
  | None => ret s
  | Some x =>
      r <- as_int (remain x - 1) ;;
      let x := set_remain x r in
      e <- as_int (execute x + 1) ;;
      let x := set_execute x e in
      if remain x =? 0 then
        v <- as_int (execute x + waiting x) ;;
        tt <- as_int (total_turnaround s + v) ;;
        tr <- as_int (total_response s + waiting x) ;;
        res <- store cap (result s) (terminate s) x ;;
        te <- as_int (terminate s + 1) ;;
        ret (mkState (pre s) (ready s) None (time s) te res tt
                     (total_waiting s) tr (gantt s))
      else
        ret (mkState (pre s) (ready s) (Some x) (time s) (terminate s)
                     (result s) (total_turnaround s) (total_waiting s)
                     (total_response s) (gantt s))
  end.

(** ** FCFS.h *)

(** Modelled from the spec: [MAX], the size of [extern Process result[MAX]]
    (FCFS.h l.44), is defined in none of the headers at hand.  The result
    storage of the specification is sized to [n], so no store of [FCFS] at
    an index from 0 on is outside it. *)
Definition MAX : option Z := None.

(** l.90-97.  [peek(&ready)] is the left operand of [&&]: it is evaluated on
    every pass, whatever [temp] is.  What [peek] does on an empty queue is
    the parameter [on_empty]. *)
Definition FCFS_dispatch_with (on_empty : Err Process)
           (s : State) : Err State :=
  f <- Queue.peek_or on_empty (ready s) ;;
  if (arrival f <=? time s) && is_null (temp s) then
    ' (x, ready') <- Queue.dequeue (ready s) ;;
    w <- as_int (time s - arrival x) ;;
    let x := set_waiting x w in
    tw <- as_int (total_waiting s + waiting x) ;;
    let x := set_execute x 0 in
    ret (mkState (pre s) ready' (Some x) (time s) (terminate s)
                 (result s) (total_turnaround s) tw (total_response s)
                 (gantt s))
  else ret s.

Definition FCFS_body_with (on_empty : Err Process) (s : State) : Err State :=
  s <- arrive s ;;
  s <- FCFS_dispatch_with on_empty s ;;
  s <- tick s ;;
  progress MAX s.

Definition FCFS_init (p : list Process) (n : Z) : Err State :=
  q <- load p 0 (Z.to_nat n) Queue.init_queue ;;
  ret (mkState (Queue.sort q compare_for_arrival) Queue.init_queue None
               0 0 [] 0 0 0 []).

Definition FCFS_with (on_empty : Err Process) (fuel : nat)
           (p : list Process) (n : Z) : option (Err State) :=
  match FCFS_init p n with
  | inl e => Some (inl e)
  | inr s => while (FCFS_body_with on_empty) n fuel s
  end.

(** The engine over the queue of the specification, whose [peek] fails on
    an empty queue. *)
Definition FCFS_dispatch : State -> Err State :=
  FCFS_dispatch_with (raise EmptyQueue).

Definition FCFS_body : State -> Err State :=
  FCFS_body_with (raise EmptyQueue).

Definition FCFS : nat -> list Process -> Z -> option (Err State) :=
  FCFS_with (raise EmptyQueue).

(** ** SJF.h *)

(** l.87-92, with the comparator of the [sort] call as a parameter; the
    source passes [compare_for_SJF]. *)
Definition SJF_arrive_with (cmp : Process -> Process -> Z)
           (s : State) : Err State :=
  if negb (Queue.is_empty_q (pre s)) then
    f <- Queue.check (pre s) ;;
    if arrival f =? time s then
      ' (x, pre') <- Queue.dispatch (pre s) ;;
      ret (mkState pre'
                   (Queue.sort (Queue.timeout (ready s) x) cmp)
                   (temp s) (time s) (terminate s) (result s)
                   (total_turnaround s) (total_waiting s)
                   (total_response s) (gantt s))
    else ret s
  else ret s.

Definition SJF_arrive : State -> Err State := SJF_arrive_with compare_for_SJF.

(** l.95-101.  [total_waiting] is a [double] in SJF.h. *)
Definition SJF_dispatch (s : State) : Err State :=
  if negb (Queue.is_empty_q (ready s)) then
    f <- Queue.check (ready s) ;;
    if (arrival f <=? time s) && is_null (temp s) then
      ' (x, ready') <- Queue.dispatch (ready s) ;;
      w <- as_int (time s - arrival x) ;;
      let x := set_waiting x w in
      ret (mkState (pre s) ready' (Some x) (time s) (terminate s)
                   (result s) (total_turnaround s)
                   (total_waiting s + waiting x) (total_response s)
                   (gantt s))
    else ret s
  else ret s.

(** l.106-118, with [Process result_sjf[5]] (l.47).  The three totals are
    [double]s in SJF.h: each holds a sum of [int]s, one for each dispatch or
    termination, and at most six of these take place before a store past
    [result_sjf], so the sums are exact. *)
Definition SJF_progress (s : State) : Err State :=
  match temp s with
  | None => ret s
  | Some x =>
      r <- as_int (remain x - 1) ;;
      let x := set_remain x r in
      if remain x =? 0 then
        v <- as_int (burst x + waiting x) ;;
        let x := set_turnaround x v in
        let tt := total_turnaround s + turnaround x in
        let x := set_response x (waiting x) in
        let tr := total_response s + response x in
        res <- store (Some 5) (result s) (terminate s) x ;;
        te <- as_int (terminate s + 1) ;;
        ret (mkState (pre s) (ready s) None (time s) te res tt
                     (total_waiting s) tr (gantt s))
      else
        ret (mkState (pre s) (ready s) (Some x) (time s) (terminate s)
                     (result s) (total_turnaround s) (total_waiting s)
                     (total_response s) (gantt s))
  end.

Definition SJF_body_with (cmp : Process -> Process -> Z)
           (s : State) : Err State :=
  s <- SJF_arrive_with cmp s ;;
  s <- SJF_dispatch s ;;
  s <- tick s ;;
  SJF_progress s.

Definition SJF_body : State -> Err State := SJF_body_with compare_for_SJF.

(** The pending queue is filled in input order and not sorted. *)
Definition SJF_init (p : list Process) (n : Z) : Err State :=
  q <- load p 0 (Z.to_nat n) Queue.init_queue ;;
  ret (mkState q Queue.init_queue None 0 0 [] 0 0 0 []).

Definition SJF (fuel : nat) (p : list Process) (n : Z) : option (Err State) :=
  match SJF_init p n with
  | inl e => Some (inl e)
  | inr s => while SJF_body n fuel s
  end.

(** ** RR.h *)

(** l.94-97 and again l.110-113: take the front of the ready queue. *)
Definition RR_take (s : State) : Err State :=
  ' (x, ready') <- Queue.dequeue (ready s) ;;
  w <- as_int (time s - timeout x) ;;
  let x := set_waiting x w in
  tw <- as_int (total_waiting s + waiting x) ;;
  let x := set_execute x 0 in
  ret (mkState (pre s) ready' (Some x) (time s) (terminate s)
               (result s) (total_turnaround s) tw (total_response s)
               (gantt s)).

(** l.93-100 *)
Definition RR_dispatch (s : State) : Err State :=
  f <- Queue.peek (ready s) ;;
  if (arrival f <=? time s) && is_null (temp s) then RR_take s
  else ret s.

(** l.103-116.  The test is against [t]; [temp] is dereferenced without a
    [NULL] test. *)
Definition RR_expire (t : Z) (s : State) : Err State :=
  match temp s with
  | None => raise NullPointer
  | Some x =>
      if execute x =? t then
        let x := set_timeout x (time s) in
        v <- as_int (execute x + waiting x) ;;
        tt <- as_int (total_turnaround s + v) ;;
        tr <- as_int (total_response s + waiting x) ;;
        RR_take
          (mkState (pre s) (Queue.enqueue (ready s) x) (Some x)
                   (time s) (terminate s) (result s) tt
                   (total_waiting s) tr (gantt s))
      else ret s
  end.

(** l.118: [gantt[time++] = *temp;] with [gantt] the [t] records of
    [malloc(sizeof(Process)*t)] (l.64).  For [t <= 0] the buffer has no
    slot at all; for [t >= 1] the allocation is taken to succeed. *)
Definition RR_chart (t : Z) (s : State) : Err State :=
  match temp s with
  | None => raise NullPointer
  | Some x =>
      g <- store (Some t) (gantt s) (time s) x ;;
      v <- as_int (time s + 1) ;;
      ret (mkState (pre s) (ready s) (temp s) v
                   (terminate s) (result s) (total_turnaround s)
                   (total_waiting s) (total_response s) g)
  end.

(** The body reads [t] and never [q]; [Process result[5]] is l.65. *)
Definition RR_body (t q : Z) (s : State) : Err State :=
  s <- arrive s ;;
  s <- RR_dispatch s ;;
  s <- RR_expire t s ;;
  s <- RR_chart t s ;;
  progress (Some 5) s.

Definition RR_init (p : list Process) (n : Z) : Err State :=
  q <- load p 0 (Z.to_nat n) Queue.init_queue ;;
  ret (mkState (Queue.sort q compare_for_arrival) Queue.init_queue None
               0 0 [] 0 0 0 []).

Definition RR (fuel : nat) (p : list Process) (n t q : Z)
  : option (Err State) :=
  match RR_init p n with
  | inl e => Some (inl e)
  | inr s => while (RR_body t q) n fuel s
  end.

(** ** Runs, sums and inputs *)

(** The states met at the head of the loop of a call that started in [s0]. *)
Inductive reachable (body : State -> Err State) (n : Z) (s0 : State)
  : State -> Prop :=
| reach_start : reachable body n s0 s0
| reach_pass : forall s s',
    reachable body n s0 s ->
    terminate s < n ->
    body s = inr s' ->
    reachable body n s0 s'.

(** A state of a call of one of the three engines on [p] and [n]. *)
Definition FCFS_state_with (on_empty : Err Process) (p : list Process)
           (n : Z) (s : State) : Prop :=
  exists s0,
    FCFS_init p n = inr s0 /\ reachable (FCFS_body_with on_empty) n s0 s.

Definition FCFS_state : list Process -> Z -> State -> Prop :=
  FCFS_state_with (raise EmptyQueue).

Definition SJF_state (p : list Process) (n : Z) (s : State) : Prop :=
  exists s0, SJF_init p n = inr s0 /\ reachable SJF_body n s0 s.

Definition RR_state (p : list Process) (n t q : Z) (s : State) : Prop :=
  exists s0, RR_init p n = inr s0 /\ reachable (RR_body t q) n s0 s.
Definition sum (l : list Z) : Z := fold_right Z.add 0 l.

(** The turnaround column of [print_result] and of the table printed by
    [RR]: [execute + waiting]. *)
Definition reported_turnaround (x : Process) : Z := execute x + waiting x.

(** A record as the data model creates it: nothing executed yet. *)
Definition whole (x : Process) : Prop := remain x = burst x.

(** Valid input of the specification, on a record that starts whole. *)
Definition valid (x : Process) : Prop :=
  0 <= arrival x /\ 0 < burst x /\ whole x.

(** A record with identity, arrival and burst given, [remain = burst],
    [timeout = arrival] and every other field zero. *)
Definition fresh (id a b : Z) : Process := mkProcess id a b b 0 0 a 0 0 0.

(** The concrete scenario of the specification. *)
Definition scenario : list Process :=
  [fresh 0 0 5; fresh 1 1 3; fresh 2 2 8].

Definition lone : list Process := [fresh 0 0 2].

Definition unit_job : list Process := [fresh 0 0 1].

Definition twins : list Process := [fresh 0 0 1; fresh 1 0 1].

Definition pair : list Process := [fresh 0 0 3; fresh 1 1 2].

Definition short_behind : list Process :=
  [fresh 0 0 2; fresh 1 1 3; fresh 2 1 1].

Definition late_first : list Process := [fresh 0 2 5; fresh 1 0 1].

(** Two unit jobs, the second arriving as the first one ends. *)
Definition relay : list Process := [fresh 0 0 1; fresh 1 1 1].

(** The state in which [SJF] is left on [twins] once P0 has finished: P1,
    which arrived at tick 0, still heads the pending queue. *)
Definition stranded (k : Z) : State :=
  mkState [fresh 1 0 1] [] None k 1
          [mkProcess 0 0 1 0 0 0 0 0 1 0] 1 0 0 [].

Definition wait_of (t : option Process) : Z :=
  match t with
  | None => 0
  | Some x => waiting x
  end.

(** The CPU slot is taken only while the loop guard holds. *)
Definition busy_below (n : Z) (s : State) : Prop :=
  temp s <> None -> terminate s < n.

(** The queues of a non-preemptive engine hold whole records only. *)
Definition queues_whole (s : State) : Prop :=
  Forall whole (pre s) /\ Forall whole (ready s).

(** The invariant behind conservation in the FCFS engine, and in the
    Round-Robin engine, none of whose passes puts a record back. *)
Definition FCFS_inv (n : Z) (s : State) : Prop :=
  queues_whole s
  /\ (forall x, temp s = Some x -> execute x + remain x = burst x)
  /\ Forall (fun x => execute x = burst x) (result s)
  /\ total_turnaround s = sum (map reported_turnaround (result s))
  /\ total_waiting s = sum (map waiting (result s)) + wait_of (temp s)
  /\ busy_below n s.

(** The invariant behind conservation in the SJF engine. *)
Definition SJF_inv (n : Z) (s : State) : Prop :=
  Forall (fun x => turnaround x = burst x + waiting x) (result s)
  /\ total_turnaround s = sum (map turnaround (result s))
  /\ total_waiting s = sum (map waiting (result s)) + wait_of (temp s)
  /\ busy_below n s.

(** Ascending by burst, as [compare_for_SJF] orders. *)
Fixpoint by_burst (l : list Process) : Prop :=
  match l with
  | [] => True
  | x :: l' => Forall (fun y => burst x <= burst y) l' /\ by_burst l'
  end.

(** The ready queue of [SJF] as the dispatch test wants it: ascending by
    burst, every record arrived. *)
Definition SJF_ready_ok (s : State) : Prop :=
  by_burst (ready s) /\ Forall (fun x => arrival x <= time s) (ready s).

(** A state with P0 of [pair] on the CPU, one tick run, and P1 ready. *)
Definition at_quantum : State :=
  mkState [] [fresh 1 1 2] (Some (mkProcess 0 0 3 2 0 0 0 1 0 0))
          1 0 [] 0 0 0 [fresh 0 0 3].

(** ** Further notions for the engines as a whole *)

(** The CPU slot as a list of at most one record. *)
Definition slot (t : option Process) : list Process :=
  match t with
  | None => []
  | Some x => [x]
  end.

(** The fields no engine writes: identity, arrival, burst and priority. *)
Definition static (x : Process) : Z * Z * Z * Z :=
  (processID x, arrival x, burst x, prioity x).

(** Every record of a call, in service order: finished, running, ready,
    pending. *)
Definition everywhere (s : State) : list Process :=
  result s ++ slot (temp s) ++ ready s ++ pre s.

(** The state in which every engine starts its loop on the pending queue
    [q]. *)
Definition start (q : Queue.QueueType) : State :=
  mkState q Queue.init_queue None 0 0 [] 0 0 0 [].

(** Strictly increasing arrival times, none in the past of tick [k]. *)
Fixpoint arrivals_from (k : Z) (l : list Process) : Prop :=
  match l with
  | [] => True
  | x :: l' => k <= arrival x /\ arrivals_from (arrival x + 1) l'
  end.

(** Work left in a list of records and in the CPU slot. *)
Definition left_in (l : list Process) : Z := sum (map remain l).

Definition left_on (t : option Process) : Z :=
  match t with
  | None => 0
  | Some x => remain x
  end.

(** Ticks until the last pending record arrives. *)
Fixpoint horizon (k : Z) (l : list Process) : Z :=
  match l with
  | [] => 0
  | x :: l' => Z.max (arrival x + 1 - k) (horizon k l')
  end.

(** One record that asks for no CPU time at all. *)
Definition zero_burst : list Process := [fresh 0 0 0].

(** An upper bound on the passes a call of [SJF] still needs: the work left
    plus the ticks until the last pending record arrives. *)
Definition budget (s : State) : Z :=
  left_in (pre s) + left_in (ready s) + left_on (temp s)
  + horizon (time s) (pre s).

(** A state from which [SJF] is sure to finish: every unfinished record has
    work left, the pending records arrive one per tick at most and none is
    overdue, and the ready records have arrived. *)
Definition SJF_live (s : State) : Prop :=
  Forall (fun x => 0 < remain x) (pre s)
  /\ Forall (fun x => 0 < remain x) (ready s)
  /\ (forall x, temp s = Some x -> 0 < remain x)
  /\ arrivals_from (time s) (pre s)
  /\ Forall (fun x => arrival x <= time s) (ready s).

(** ** Further notions for the properties below *)


(** The outcome of a dispatch test: nothing, or the front of the ready
    queue moved to the idle CPU slot with [execute = 0] and with [w], the
    time it waited, in [waiting] and added to [total_waiting]. *)
Definition takes (s1 s2 : State) : Prop :=
  s2 = s1
  \/ exists x ready' w,
       ready s1 = x :: ready' /\ temp s1 = None
       /\ s2 = mkState (pre s1) ready'
                       (Some (set_execute (set_waiting x w) 0))
                       (time s1) (terminate s1) (result s1)
                       (total_turnaround s1) (total_waiting s1 + w)
                       (total_response s1) (gantt s1).

(** A pass of the body of [FCFS] or of [RR] in which the running record is
    not put back in the ready queue: arrival, dispatch, the tick of the
    clock and the progress block on a result buffer of [cap] records. *)
Definition pass (cap : option Z) (s s' : State) : Prop :=
  exists s1 s2 g,
    arrive s = inr s1 /\ takes s1 s2
    /\ progress cap
         (mkState (pre s2) (ready s2) (temp s2) (time s2 + 1) (terminate s2)
                  (result s2) (total_turnaround s2) (total_waiting s2)
                  (total_response s2) g) = inr s'.

(** The clock has not gone back, and the running record has run for no
    longer than the clock has. *)
Definition clocked (s : State) : Prop :=
  0 <= time s /\ forall x, temp s = Some x -> 0 <= execute x <= time s.

(** A record the engines can count on: arrival not negative, a positive
    burst that fits an [int], nothing executed yet. *)
Definition sized (x : Process) : Prop :=
  0 <= arrival x /\ 0 < burst x <= INT_MAX /\ whole x.

(** A state of [SJF] whose next pass has every [int] in range: the queued
    records are sized, the ready ones have arrived, and the running record
    has waited and run for no longer than the clock has gone. *)
Definition SJF_bounded (s : State) : Prop :=
  0 <= time s /\ 0 <= terminate s
  /\ Forall sized (pre s)
  /\ Forall (fun x => sized x /\ arrival x <= time s) (ready s)
  /\ (forall x, temp s = Some x ->
        0 <= waiting x /\ 0 < remain x <= burst x /\ burst x <= INT_MAX
        /\ burst x + waiting x <= time s + remain x).

(** Six unit jobs, one arriving at each tick. *)
Definition six_jobs : list Process :=
  [fresh 0 0 1; fresh 1 1 1; fresh 2 2 1; fresh 3 3 1; fresh 4 4 1;
   fresh 5 5 1].

(** * Properties *)

(** ** The loop *)

Lemma bind_inr : forall (A B : Type) (m : Err A) (k : A -> Err B) (b : B),
  bind m k = inr b -> exists a, m = inr a /\ k a = inr b.
Proof.
  intros A B [e | a] k b H; simpl in H.
  - discriminate.
  - exists a. split; [reflexivity | exact H].
Qed.

Lemma bind_inl : forall (A B : Type) (m : Err A) (k : A -> Err B) (e : error),
  bind m k = inl e -> m = inl e \/ exists a, m = inr a /\ k a = inl e.
Proof.
  intros A B [e' | a] k e H; simpl in H.
  - left. injection H as ->. reflexivity.
  - right. exists a. split; [reflexivity | exact H].
Qed.

(** The failures of a chain of steps, one goal for each step. *)
Ltac blame H :=
  cbv beta zeta in H;
  lazymatch type of H with
  | bind _ _ = inl _ =>
      let a := fresh "a" in
      apply bind_inl in H; destruct H as [H | [a [_ H]]]; [| blame H]
  | _ => idtac
  end.

Lemma reachable_invariant :
  forall (I : State -> Prop) (body : State -> Err State) (n : Z) (s0 : State),
    I s0 ->
    (forall s s', I s -> terminate s < n -> body s = inr s' -> I s') ->
    forall s, reachable body n s0 s -> I s.
Proof.
  intros I body n s0 H0 Hstep s Hr.
  induction Hr as [| s s' _ IH Hlt Hb].
  - exact H0.
  - exact (Hstep s s' IH Hlt Hb).
Qed.

Lemma reachable_trans : forall body n s0 s1 s2,
  reachable body n s0 s1 -> reachable body n s1 s2 -> reachable body n s0 s2.
Proof.
  intros body n s0 s1 s2 H01 H12.
  induction H12 as [| s s' _ IH Hlt Hb].
  - exact H01.
  - exact (reach_pass IH Hlt Hb).
Qed.

Lemma while_reachable : forall body n fuel s s',
  while body n fuel s = Some (inr s') ->
  reachable body n s s' /\ n <= terminate s'.
Proof.
  intros body n fuel.
  induction fuel as [| fuel IH]; intros s s' H; simpl in H.
  - destruct (terminate s <? n) eqn:Hg; [discriminate |].
    injection H as <-. split; [constructor | apply Z.ltb_ge; exact Hg].
  - destruct (terminate s <? n) eqn:Hg.
    + destruct (body s) as [e | s1] eqn:Hb; [discriminate |].
      destruct (IH s1 s' H) as [Hr Hn].
      split; [| exact Hn].
      apply reachable_trans with s1; [| exact Hr].
      apply reach_pass with s; [constructor | apply Z.ltb_lt; exact Hg | exact Hb].
    + injection H as <-. split; [constructor | apply Z.ltb_ge; exact Hg].
Qed.

Lemma ticks_reachable : forall body n k s s',
  ticks body n k s = inr s' -> reachable body n s s'.
Proof.
  intros body n k.
  induction k as [| k IH]; intros s s' H; simpl in H.
  - injection H as <-. constructor.
  - destruct (terminate s <? n) eqn:Hg.
    + apply bind_inr in H. destruct H as [s1 [Hb H]].
      apply reachable_trans with s1; [| exact (IH _ _ H)].
      apply reach_pass with s; [constructor | apply Z.ltb_lt; exact Hg | exact Hb].
    + injection H as <-. constructor.
Qed.

Lemma FCFS_final_state_with : forall d fuel p n s,
  FCFS_with d fuel p n = Some (inr s) ->
  FCFS_state_with d p n s /\ n <= terminate s.
Proof.
  unfold FCFS_with, FCFS_state_with. intros d fuel p n s H.
  destruct (FCFS_init p n) as [e | s0]; [discriminate |].
  apply while_reachable in H. destruct H as [Hr Hn].
  split; [exists s0; split; [reflexivity | exact Hr] | exact Hn].
Qed.

Lemma FCFS_final_state : forall fuel p n s,
  FCFS fuel p n = Some (inr s) -> FCFS_state p n s /\ n <= terminate s.
Proof.
  intros fuel p n s H. exact (FCFS_final_state_with _ _ _ _ H).
Qed.

Lemma SJF_final_state : forall fuel p n s,
  SJF fuel p n = Some (inr s) -> SJF_state p n s /\ n <= terminate s.
Proof.
  unfold SJF, SJF_state. intros fuel p n s H.
  destruct (SJF_init p n) as [e | s0]; [discriminate |].
  apply while_reachable in H. destruct H as [Hr Hn].
  split; [exists s0; split; [reflexivity | exact Hr] | exact Hn].
Qed.

Lemma RR_final_state : forall fuel p n t q s,
  RR fuel p n t q = Some (inr s) -> RR_state p n t q s /\ n <= terminate s.
Proof.
  unfold RR, RR_state. intros fuel p n t q s H.
  destruct (RR_init p n) as [e | s0]; [discriminate |].
  apply while_reachable in H. destruct H as [Hr Hn].
  split; [exists s0; split; [reflexivity | exact Hr] | exact Hn].
Qed.

(** ** Integers and buffers *)

Lemma as_int_inr : forall v r,
  as_int v = inr r -> r = v /\ INT_MIN <= v <= INT_MAX.
Proof.
  unfold as_int. intros v r H.
  destruct ((INT_MIN <=? v) && (v <=? INT_MAX)) eqn:Hb; [| discriminate].
  apply andb_true_iff in Hb. destruct Hb as [Hl Hu].
  apply Z.leb_le in Hl. apply Z.leb_le in Hu.
  injection H as <-. auto.
Qed.

Lemma as_int_inl : forall v e, as_int v = inl e -> e = Overflow.
Proof.
  unfold as_int. intros v e H.
  destruct ((INT_MIN <=? v) && (v <=? INT_MAX)); [discriminate |].
  injection H as <-. reflexivity.
Qed.

Lemma as_int_ok : forall v, INT_MIN <= v <= INT_MAX -> as_int v = inr v.
Proof.
  unfold as_int. intros v [Hl Hu].
  apply Z.leb_le in Hl. apply Z.leb_le in Hu. rewrite Hl, Hu. reflexivity.
Qed.

Lemma store_inr : forall cap a i x r,
  store cap a i x = inr r -> r = a ++ [x] /\ has_slot cap i = true.
Proof.
  unfold store. intros cap a i x r H.
  destruct (has_slot cap i); [| discriminate].
  injection H as <-. auto.
Qed.

Lemma store_inl : forall cap a i x e,
  store cap a i x = inl e -> e = OutOfBounds.
Proof.
  unfold store. intros cap a i x e H.
  destruct (has_slot cap i); [discriminate |].
  injection H as <-. reflexivity.
Qed.

Lemma has_slot_bounds : forall c i,
  has_slot (Some c) i = true -> 0 <= i < c.
Proof.
  unfold has_slot. intros c i H.
  apply andb_true_iff in H. destruct H as [Hl Hu].
  apply Z.leb_le in Hl. apply Z.ltb_lt in Hu. lia.
Qed.

Lemma has_slot_ok : forall c i, 0 <= i < c -> has_slot (Some c) i = true.
Proof.
  unfold has_slot. intros c i [Hl Hu].
  apply Z.leb_le in Hl. apply Z.ltb_lt in Hu. rewrite Hl, Hu. reflexivity.
Qed.

(** ** What each block of a body does *)

Lemma arrive_cases : forall s s',
  arrive s = inr s' ->
  s' = s
  \/ exists x pre',
       pre s = x :: pre' /\ arrival x = time s
       /\ s' = mkState pre' (ready s ++ [x]) (temp s) (time s)
                       (terminate s) (result s) (total_turnaround s)
                       (total_waiting s) (total_response s) (gantt s).
Proof.
  unfold arrive. intros s s' H.
  destruct (pre s) as [| x pre'] eqn:Hp; simpl in H.
  - left. injection H as <-. reflexivity.
  - destruct (arrival x =? time s) eqn:Ha; simpl in H.
    + right. exists x, pre'. apply Z.eqb_eq in Ha.
      injection H as <-. auto.
    + left. injection H as <-. reflexivity.
Qed.

Lemma SJF_arrive_cases : forall cmp s s',
  SJF_arrive_with cmp s = inr s' ->
  s' = s
  \/ exists x pre',
       pre s = x :: pre' /\ arrival x = time s
       /\ s' = mkState pre' (Queue.sort (ready s ++ [x]) cmp)
                       (temp s) (time s) (terminate s) (result s)
                       (total_turnaround s) (total_waiting s)
                       (total_response s) (gantt s).
Proof.
  unfold SJF_arrive_with. intros cmp s s' H.
  destruct (pre s) as [| x pre'] eqn:Hp; simpl in H.
  - left. injection H as <-. reflexivity.
  - destruct (arrival x =? time s) eqn:Ha; simpl in H.
    + right. exists x, pre'. apply Z.eqb_eq in Ha.
      injection H as <-. auto.
    + left. injection H as <-. reflexivity.
Qed.

Lemma tick_cases : forall s s',
  tick s = inr s' ->
  time s < INT_MAX
  /\ s' = mkState (pre s) (ready s) (temp s) (time s + 1) (terminate s)
                  (result s) (total_turnaround s) (total_waiting s)
                  (total_response s) (gantt s).
Proof.
  unfold tick. intros s s' H.
  apply bind_inr in H. destruct H as [v [Hv H]].
  apply as_int_inr in Hv. destruct Hv as [-> Hv].
  injection H as <-. split; [lia | reflexivity].
Qed.

Lemma FCFS_dispatch_cases : forall d s s',
  FCFS_dispatch_with d s = inr s' ->
  s' = s
  \/ exists x ready',
       ready s = x :: ready' /\ temp s = None
       /\ s' = mkState (pre s) ready'
                       (Some (set_execute
                                (set_waiting x (time s - arrival x)) 0))
                       (time s) (terminate s) (result s)
                       (total_turnaround s)
                       (total_waiting s + (time s - arrival x))
                       (total_response s) (gantt s).
Proof.
  unfold FCFS_dispatch_with. intros d s s' H.
  apply bind_inr in H. destruct H as [f [Hf H]].
  destruct ((arrival f <=? time s) && is_null (temp s)) eqn:Hb.
  - right. apply andb_true_iff in Hb. destruct Hb as [_ Hb].
    destruct (temp s) as [y |] eqn:Ht; [discriminate |].
    destruct (ready s) as [| x ready'] eqn:Hr; simpl in H; [discriminate |].
    apply bind_inr in H. destruct H as [w [Hw H]].
    apply as_int_inr in Hw. destruct Hw as [-> _].
    apply bind_inr in H. destruct H as [tw [Htw H]].
    apply as_int_inr in Htw. destruct Htw as [-> _].
    exists x, ready'. injection H as <-. auto.
  - left. injection H as <-. reflexivity.
Qed.

Lemma SJF_dispatch_cases : forall s s',
  SJF_dispatch s = inr s' ->
  s' = s
  \/ exists x ready',
       ready s = x :: ready' /\ temp s = None
       /\ s' = mkState (pre s) ready'
                       (Some (set_waiting x (time s - arrival x)))
                       (time s) (terminate s) (result s)
                       (total_turnaround s)
                       (total_waiting s + (time s - arrival x))
                       (total_response s) (gantt s).
Proof.
  unfold SJF_dispatch. intros s s' H.
  destruct (ready s) as [| x ready'] eqn:Hr; simpl in H.
  - left. injection H as <-. reflexivity.
  - destruct (temp s) as [y |] eqn:Ht; simpl in H.
    + rewrite andb_false_r in H. left. injection H as <-. reflexivity.
    + destruct (arrival x <=? time s); simpl in H.
      * right. exists x, ready'.
        apply bind_inr in H. destruct H as [w [Hw H]].
        apply as_int_inr in Hw. destruct Hw as [-> _].
        injection H as <-. auto.
      * left. injection H as <-. reflexivity.
Qed.

Lemma RR_take_cases : forall s s',
  RR_take s = inr s' ->
  exists x ready',
    ready s = x :: ready'
    /\ s' = mkState (pre s) ready'
                    (Some (set_execute
                             (set_waiting x (time s - timeout x)) 0))
                    (time s) (terminate s) (result s) (total_turnaround s)
                    (total_waiting s + (time s - timeout x))
                    (total_response s) (gantt s).
Proof.
  unfold RR_take. intros s s' H.
  destruct (ready s) as [| x ready'] eqn:Hr; simpl in H; [discriminate |].
  apply bind_inr in H. destruct H as [w [Hw H]].
  apply as_int_inr in Hw. destruct Hw as [-> _].
  apply bind_inr in H. destruct H as [tw [Htw H]].
  apply as_int_inr in Htw. destruct Htw as [-> _].
  exists x, ready'. injection H as <-. auto.
Qed.

Lemma RR_dispatch_cases : forall s s',
  RR_dispatch s = inr s' ->
  (s' = s /\ ready s <> [])
  \/ (temp s = None /\ RR_take s = inr s').
Proof.
  unfold RR_dispatch. intros s s' H.
  destruct (ready s) as [| x ready'] eqn:Hr; simpl in H; [discriminate |].
  destruct (temp s) as [y |] eqn:Ht; simpl in H.
  - rewrite andb_false_r in H. left. injection H as <-.
    split; [reflexivity | discriminate].
  - destruct (arrival x <=? time s); simpl in H.
    + right. split; [reflexivity | exact H].
    + left. injection H as <-.
      split; [reflexivity | discriminate].
Qed.

Lemma RR_expire_cases : forall t s s',
  RR_expire t s = inr s' ->
  exists x, temp s = Some x
    /\ ((execute x <> t /\ s' = s)
        \/ (execute x = t
            /\ RR_take
                 (mkState (pre s)
                          (ready s ++ [set_timeout x (time s)])
                          (Some (set_timeout x (time s)))
                          (time s) (terminate s) (result s)
                          (total_turnaround s + (execute x + waiting x))
                          (total_waiting s)
                          (total_response s + waiting x) (gantt s))
               = inr s')).
Proof.
  unfold RR_expire. intros t s s' H.
  destruct (temp s) as [x |] eqn:Ht; [| discriminate].
  exists x. split; [reflexivity |].
  destruct (execute x =? t) eqn:He.
  - right. apply Z.eqb_eq in He. split; [exact He |].
    apply bind_inr in H. destruct H as [v [Hv H]].
    apply as_int_inr in Hv. destruct Hv as [-> _].
    apply bind_inr in H. destruct H as [tt [Htt H]].
    apply as_int_inr in Htt. destruct Htt as [-> _].
    apply bind_inr in H. destruct H as [tr [Htr H]].
    apply as_int_inr in Htr. destruct Htr as [-> _].
    exact H.
  - left. apply Z.eqb_neq in He. injection H as <-. auto.
Qed.

Lemma RR_chart_cases : forall t s s',
  RR_chart t s = inr s' ->
  exists x, temp s = Some x
    /\ 0 <= time s < t
    /\ s' = mkState (pre s) (ready s) (temp s) (time s + 1)
                    (terminate s) (result s) (total_turnaround s)
                    (total_waiting s) (total_response s) (gantt s ++ [x]).
Proof.
  unfold RR_chart. intros t s s' H.
  destruct (temp s) as [x |] eqn:Ht; [| discriminate].
  apply bind_inr in H. destruct H as [g [Hg H]].
  apply store_inr in Hg. destruct Hg as [-> Hg].
  apply has_slot_bounds in Hg.
  apply bind_inr in H. destruct H as [v [Hv H]].
  apply as_int_inr in Hv. destruct Hv as [-> _].
  exists x. injection H as <-. auto.
Qed.

Lemma progress_cases : forall cap s s',
  progress cap s = inr s' ->
  (temp s = None /\ s' = s)
  \/ exists x, temp s = Some x
       /\ let y := set_execute (set_remain x (remain x - 1)) (execute x + 1) in
          (remain x - 1 = 0
           /\ s'
              = mkState (pre s) (ready s) None (time s)
                        (terminate s + 1) (result s ++ [y])
                        (total_turnaround s + (execute y + waiting y))
                        (total_waiting s)
                        (total_response s + waiting y) (gantt s))
          \/ (remain x - 1 <> 0
              /\ s'
                 = mkState (pre s) (ready s) (Some y) (time s)
                           (terminate s) (result s) (total_turnaround s)
                           (total_waiting s) (total_response s) (gantt s)).
Proof.
  intros cap s s' H. unfold progress in H.
  destruct (temp s) as [x |] eqn:Ht.
  - right. exists x. split; [reflexivity |].
    apply bind_inr in H. destruct H as [r [Hr H]].
    apply as_int_inr in Hr. destruct Hr as [-> _].
    apply bind_inr in H. destruct H as [e [He H]].
    apply as_int_inr in He. destruct He as [-> _].
    simpl in H. simpl.
    destruct (remain x - 1 =? 0) eqn:Hz.
    + left. apply Z.eqb_eq in Hz.
      apply bind_inr in H. destruct H as [v [Hv H]].
      apply as_int_inr in Hv. destruct Hv as [-> _].
      apply bind_inr in H. destruct H as [tt [Htt H]].
      apply as_int_inr in Htt. destruct Htt as [-> _].
      apply bind_inr in H. destruct H as [tr [Htr H]].
      apply as_int_inr in Htr. destruct Htr as [-> _].
      apply bind_inr in H. destruct H as [res [Hres H]].
      apply store_inr in Hres. destruct Hres as [-> _].
      apply bind_inr in H. destruct H as [te [Hte H]].
      apply as_int_inr in Hte. destruct Hte as [-> _].
      injection H as <-. auto.
    + right. apply Z.eqb_neq in Hz. injection H as <-. auto.
  - left. injection H as <-. auto.
Qed.

Lemma SJF_progress_cases : forall s s',
  SJF_progress s = inr s' ->
  (temp s = None /\ s' = s)
  \/ exists x, temp s = Some x
       /\ let y := set_remain x (remain x - 1) in
          (remain x - 1 = 0
           /\ s'
              = mkState (pre s) (ready s) None (time s)
                        (terminate s + 1)
                        (result s
                         ++ [set_response
                               (set_turnaround y (burst y + waiting y))
                               (waiting y)])
                        (total_turnaround s + (burst y + waiting y))
                        (total_waiting s)
                        (total_response s + waiting y) (gantt s))
          \/ (remain x - 1 <> 0
              /\ s'
                 = mkState (pre s) (ready s) (Some y) (time s)
                           (terminate s) (result s) (total_turnaround s)
                           (total_waiting s) (total_response s) (gantt s)).
Proof.
  intros s s' H. unfold SJF_progress in H.
  destruct (temp s) as [x |] eqn:Ht.
  - right. exists x. split; [reflexivity |].
    apply bind_inr in H. destruct H as [r [Hr H]].
    apply as_int_inr in Hr. destruct Hr as [-> _].
    simpl in H. simpl.
    destruct (remain x - 1 =? 0) eqn:Hz.
    + left. apply Z.eqb_eq in Hz.
      apply bind_inr in H. destruct H as [v [Hv H]].
      apply as_int_inr in Hv. destruct Hv as [-> _].
      apply bind_inr in H. destruct H as [res [Hres H]].
      apply store_inr in Hres. destruct Hres as [-> _].
      apply bind_inr in H. destruct H as [te [Hte H]].
      apply as_int_inr in Hte. destruct Hte as [-> _].
      injection H as <-. auto.
    + right. apply Z.eqb_neq in Hz. injection H as <-. auto.
  - left. injection H as <-. auto.
Qed.

(** The four steps of a pass of each body. *)
Lemma FCFS_body_steps : forall d s s',
  FCFS_body_with d s = inr s' ->
  exists s1 s2,
    arrive s = inr s1 /\ FCFS_dispatch_with d s1 = inr s2
    /\ time s2 < INT_MAX
    /\ progress MAX
         (mkState (pre s2) (ready s2) (temp s2) (time s2 + 1) (terminate s2)
                  (result s2) (total_turnaround s2) (total_waiting s2)
                  (total_response s2) (gantt s2)) = inr s'.
Proof.
  unfold FCFS_body_with. intros d s s' H.
  apply bind_inr in H. destruct H as [s1 [H1 H]].
  apply bind_inr in H. destruct H as [s2 [H2 H]].
  apply bind_inr in H. destruct H as [s3 [H3 H]].
  apply tick_cases in H3. destruct H3 as [Hc ->].
  exists s1, s2. auto.
Qed.

Lemma SJF_body_steps : forall cmp s s',
  SJF_body_with cmp s = inr s' ->
  exists s1 s2,
    SJF_arrive_with cmp s = inr s1 /\ SJF_dispatch s1 = inr s2
    /\ time s2 < INT_MAX
    /\ SJF_progress
         (mkState (pre s2) (ready s2) (temp s2) (time s2 + 1) (terminate s2)
                  (result s2) (total_turnaround s2) (total_waiting s2)
                  (total_response s2) (gantt s2)) = inr s'.
Proof.
  unfold SJF_body_with. intros cmp s s' H.
  apply bind_inr in H. destruct H as [s1 [H1 H]].
  apply bind_inr in H. destruct H as [s2 [H2 H]].
  apply bind_inr in H. destruct H as [s3 [H3 H]].
  apply tick_cases in H3. destruct H3 as [Hc ->].
  exists s1, s2. auto.
Qed.

Lemma RR_body_steps : forall t q s s',
  RR_body t q s = inr s' ->
  exists s1 s2 s3 x,
    arrive s = inr s1 /\ RR_dispatch s1 = inr s2
    /\ RR_expire t s2 = inr s3
    /\ temp s3 = Some x /\ 0 <= time s3 < t
    /\ progress (Some 5)
         (mkState (pre s3) (ready s3) (temp s3) (time s3 + 1) (terminate s3)
                  (result s3) (total_turnaround s3) (total_waiting s3)
                  (total_response s3) (gantt s3 ++ [x])) = inr s'.
Proof.
  unfold RR_body. intros t q s s' H.
  apply bind_inr in H. destruct H as [s1 [H1 H]].
  apply bind_inr in H. destruct H as [s2 [H2 H]].
  apply bind_inr in H. destruct H as [s3 [H3 H]].
  apply bind_inr in H. destruct H as [s4 [H4 H]].
  apply RR_chart_cases in H4. destruct H4 as [x [Hx [Hc ->]]].
  exists s1, s2, s3, x. auto 10.
Qed.

(** ** The failures an engine can end in *)

Lemma load_fails : forall p count i q e,
  load p i count q = inl e -> e = OutOfBounds.
Proof.
  intros p count.
  induction count as [| count IH]; intros i q e H; simpl in H.
  - discriminate.
  - destruct (nth_error p i) as [x |].
    + exact (IH _ _ _ H).
    + injection H as <-. reflexivity.
Qed.

Lemma arrive_total : forall s e, arrive s <> inl e.
Proof.
  unfold arrive. intros s e.
  destruct (pre s) as [| x pre']; simpl; [discriminate |].
  destruct (arrival x =? time s); simpl; discriminate.
Qed.

Lemma SJF_arrive_total : forall cmp s e, SJF_arrive_with cmp s <> inl e.
Proof.
  unfold SJF_arrive_with. intros cmp s e.
  destruct (pre s) as [| x pre']; simpl; [discriminate |].
  destruct (arrival x =? time s); simpl; discriminate.
Qed.

Lemma tick_fails : forall s e, tick s = inl e -> e = Overflow.
Proof.
  unfold tick. intros s e H. blame H.
  - exact (as_int_inl _ H).
  - discriminate.
Qed.

Lemma progress_fails : forall cap s e,
  progress cap s = inl e -> e = Overflow \/ e = OutOfBounds.
Proof.
  unfold progress. intros cap s e H.
  destruct (temp s) as [x |]; [| discriminate].
  blame H; try (left; exact (as_int_inl _ H)).
  simpl in H. destruct (a =? 0); [| discriminate].
  blame H; try (left; exact (as_int_inl _ H)); try discriminate.
  right. exact (store_inl _ _ _ _ H).
Qed.

Lemma SJF_progress_fails : forall s e,
  SJF_progress s = inl e -> e = Overflow \/ e = OutOfBounds.
Proof.
  unfold SJF_progress. intros s e H.
  destruct (temp s) as [x |]; [| discriminate].
  blame H; try (left; exact (as_int_inl _ H)).
  simpl in H. destruct (a =? 0); [| discriminate].
  blame H; try (left; exact (as_int_inl _ H)); try discriminate.
  right. exact (store_inl _ _ _ _ H).
Qed.

Lemma SJF_dispatch_fails : forall s e, SJF_dispatch s = inl e -> e = Overflow.
Proof.
  unfold SJF_dispatch. intros s e H.
  destruct (ready s) as [| x ready']; simpl in H; [discriminate |].
  destruct ((arrival x <=? time s) && is_null (temp s)); simpl in H;
    [| discriminate].
  blame H; [exact (as_int_inl _ H) | discriminate].
Qed.

Lemma SJF_body_fails : forall cmp s e,
  SJF_body_with cmp s = inl e -> e = Overflow \/ e = OutOfBounds.
Proof.
  unfold SJF_body_with. intros cmp s e H. blame H.
  - exfalso. exact (SJF_arrive_total _ _ H).
  - left. exact (SJF_dispatch_fails _ H).
  - left. exact (tick_fails _ H).
  - exact (SJF_progress_fails _ H).
Qed.

Lemma while_fails : forall (P : error -> Prop) body n,
  (forall s e, body s = inl e -> P e) ->
  forall fuel s e, while body n fuel s = Some (inl e) -> P e.
Proof.
  intros P body n Hb fuel.
  induction fuel as [| fuel IH]; intros s e H; simpl in H.
  - destruct (terminate s <? n); discriminate.
  - destruct (terminate s <? n); [| discriminate].
    destruct (body s) as [e' | s'] eqn:Hs.
    + injection H as <-. exact (Hb _ _ Hs).
    + exact (IH _ _ H).
Qed.

(** The guarded sibling: [SJF] never ends in [EmptyQueue] or in a [NULL]
    dereference. *)
Lemma SJF_fails : forall fuel p n e,
  SJF fuel p n = Some (inl e) -> e = Overflow \/ e = OutOfBounds.
Proof.
  unfold SJF, SJF_init. intros fuel p n e H.
  destruct (load p 0 (Z.to_nat n) Queue.init_queue) as [e' | q0] eqn:Hl;
    simpl in H.
  - injection H as <-. right. exact (load_fails _ _ _ _ Hl).
  - pattern e. eapply while_fails; [| exact H].
    intros s e'. apply SJF_body_fails.
Qed.

Lemma RR_take_fails : forall s e,
  RR_take s = inl e -> e = EmptyQueue \/ e = Overflow.
Proof.
  unfold RR_take. intros s e H.
  destruct (ready s) as [| x ready']; simpl in H.
  - injection H as <-. left. reflexivity.
  - blame H; try (right; exact (as_int_inl _ H)). discriminate.
Qed.

Lemma RR_dispatch_fails : forall s e,
  RR_dispatch s = inl e -> e = EmptyQueue \/ e = Overflow.
Proof.
  unfold RR_dispatch. intros s e H.
  destruct (ready s) as [| x ready'] eqn:Hr; simpl in H.
  - injection H as <-. left. reflexivity.
  - destruct ((arrival x <=? time s) && is_null (temp s)).
    + exact (RR_take_fails _ H).
    + discriminate.
Qed.

Lemma RR_body_fails : forall t q s e,
  RR_body t q s = inl e ->
  e = EmptyQueue \/ e = NullPointer \/ e = Overflow \/ e = OutOfBounds.
Proof.
  unfold RR_body. intros t q s e H. blame H.
  - exfalso. exact (arrive_total _ H).
  - destruct (RR_dispatch_fails _ H) as [-> | ->]; auto.
  - unfold RR_expire in H. destruct (temp a0) as [x |].
    + destruct (execute x =? t); [| discriminate].
      blame H; try (right; right; left; exact (as_int_inl _ H)).
      destruct (RR_take_fails _ H) as [-> | ->]; auto.
    + injection H as <-. auto.
  - unfold RR_chart in H. destruct (temp a1) as [x |].
    + blame H.
      * right. right. right. exact (store_inl _ _ _ _ H).
      * right. right. left. exact (as_int_inl _ H).
      * discriminate.
    + injection H as <-. auto.
  - destruct (progress_fails _ _ H) as [-> | ->]; auto.
Qed.

Lemma RR_fails : forall fuel p n t q e,
  RR fuel p n t q = Some (inl e) ->
  e = EmptyQueue \/ e = NullPointer \/ e = Overflow \/ e = OutOfBounds.
Proof.
  unfold RR, RR_init. intros fuel p n t q e H.
  destruct (load p 0 (Z.to_nat n) Queue.init_queue) as [e' | q0] eqn:Hl;
    simpl in H.
  - injection H as <-. right. right. right. exact (load_fails _ _ _ _ Hl).
  - pattern e. eapply while_fails; [| exact H].
    intros s e'. apply RR_body_fails.
Qed.

(** C8, as the code has it.  [RR] validates nothing: whatever the quantum,
    a call never ends in [InvalidQuantum]; with at least one process to
    load it goes into the simulation loop and runs the first pass of the
    body. *)
Theorem RR_never_rejects_a_quantum : forall fuel p n t q,
  RR fuel p n t q <> Some (inl InvalidQuantum)
  /\ (forall s0,
        RR_init p n = inr s0 -> 0 < n ->
        RR (S fuel) p n t q
        = match RR_body t q s0 with
          | inl e => Some (inl e)
          | inr s1 => while (RR_body t q) n fuel s1
          end).
Proof.
  intros fuel p n t q. split.
  - intros H. apply RR_fails in H.
    destruct H as [H | [H | [H | H]]]; discriminate.
  - intros s0 Hi Hn. unfold RR. rewrite Hi.
    assert (E : terminate s0 = 0).
    { unfold RR_init in Hi. apply bind_inr in Hi.
      destruct Hi as [q0 [_ Hi]]. injection Hi as <-. reflexivity. }
    simpl. rewrite E.
    destruct (0 <? n) eqn:Hg; [reflexivity |].
    apply Z.ltb_ge in Hg. lia.
Qed.

(** C8, refuted as stated: called with the quantum [q = 0] (and [t = 1],
    the total burst time) on one process of burst 1, [RR] runs its loop,
    finishes the process and reports it. *)
Lemma RR_runs_on_quantum_zero :
  exists s,
    RR 1 unit_job 1 1 0 = Some (inr s)
    /\ map processID (result s) = [0]
    /\ terminate s = 1
    /\ time s = 1.
Proof.
  eexists. split; [vm_compute; reflexivity |].
  repeat split.
Qed.

(** ** Runs on concrete inputs *)

(** C1, on the code.  [RR] is called on P0(arrival 0, burst 3) and
    P1(arrival 1, burst 2) with [t = 5], the total burst time, and the
    quantum [q = 1].  At tick 1 the running P0 has run for [q] ticks and
    still has work left; the body compares [execute] with [t], so P0 is not
    put back in the ready queue, its [timeout] stays as it was and it keeps
    the CPU. *)
Theorem RR_tests_t_not_q :
  exists s1 x s2 y,
    bind (RR_init pair 2) (ticks (RR_body 5 1) 2 1) = inr s1
    /\ time s1 = 1
    /\ temp s1 = Some x /\ processID x = 0
    /\ execute x = 1 /\ 0 < remain x
    /\ RR_body 5 1 s1 = inr s2
    /\ temp s2 = Some y /\ processID y = 0 /\ timeout y = timeout x
    /\ execute y = 2
    /\ map processID (ready s2) = [1].
Proof.
  do 4 eexists. split; [vm_compute; reflexivity |].
  split; [reflexivity |].
  split; [reflexivity |].
  split; [reflexivity |].
  split; [reflexivity |].
  split; [reflexivity |].
  split; [vm_compute; reflexivity |].
  split; [reflexivity |].
  repeat split.
Qed.

Lemma SJF_stranded_pass : forall k,
  1 <= k < INT_MAX -> SJF_body (stranded k) = inr (stranded (k + 1)).
Proof.
  intros k Hk. unfold SJF_body, SJF_body_with.
  assert (E1 : SJF_arrive_with compare_for_SJF (stranded k)
               = inr (stranded k)).
  { destruct k as [| k | k]; [lia | reflexivity | lia]. }
  rewrite E1. simpl.
  unfold tick. simpl. rewrite as_int_ok by (unfold INT_MIN; lia).
  reflexivity.
Qed.

Lemma SJF_stranded : forall fuel k,
  1 <= k -> k + Z.of_nat fuel <= INT_MAX ->
  while SJF_body 2 fuel (stranded k) = None.
Proof.
  induction fuel as [| fuel IH]; intros k Hk Hf.
  - reflexivity.
  - change (while SJF_body 2 (S fuel) (stranded k))
      with (match SJF_body (stranded k) with
            | inl e => Some (inl e)
            | inr s' => while SJF_body 2 fuel s'
            end).
    rewrite SJF_stranded_pass by lia. apply IH; lia.
Qed.

(** C2, on the code.  P0 and P1 both arrive at tick 0.  The arrival block
    moves P0 alone; P1, whose arrival time is the current tick, stays at the
    head of the pending queue.  No later tick equals its arrival time, so it
    is not admitted then either: [FCFS] and [RR] peek an empty ready queue
    at tick 1, and [SJF] is still in its loop after any number of passes
    that its clock can count. *)
Theorem arrival_block_admits_one_record :
  exists s0 s1 x,
    FCFS_init twins 2 = inr s0
    /\ arrive s0 = inr s1
    /\ time s1 = 0
    /\ map processID (ready s1) = [0]
    /\ pre s1 = [x] /\ processID x = 1 /\ arrival x = time s1
    /\ (forall fuel, FCFS (2 + fuel) twins 2 = Some (inl EmptyQueue))
    /\ (forall fuel, RR (2 + fuel) twins 2 2 1 = Some (inl EmptyQueue))
    /\ (forall fuel, Z.of_nat fuel <= INT_MAX -> SJF fuel twins 2 = None).
Proof.
  do 3 eexists. split; [vm_compute; reflexivity |].
  split; [vm_compute; reflexivity |].
  split; [reflexivity |].
  split; [reflexivity |].
  split; [reflexivity |].
  split; [reflexivity |].
  split; [reflexivity |].
  split; [intros fuel; reflexivity |].
  split; [intros fuel; reflexivity |].
  intros [| fuel] Hf; [reflexivity |].
  change (SJF (S fuel) twins 2) with (while SJF_body 2 fuel (stranded 1)).
  apply SJF_stranded; lia.
Qed.

(** C3, on the code.  The input is valid: one process, arrival 0, burst 2.
    At tick 1 it is still running, both queues are empty, and the dispatch
    test of [FCFS] and of [RR] peeks the ready queue all the same.  [SJF]
    tests [is_empty_q] first and finishes. *)
Theorem dispatch_peeks_an_empty_ready_queue :
  Forall valid lone
  /\ (exists s1 x,
        bind (FCFS_init lone 1) (ticks FCFS_body 1 1) = inr s1
        /\ temp s1 = Some x /\ pre s1 = [] /\ ready s1 = []
        /\ arrive s1 = inr s1
        /\ Queue.peek (ready s1) = inl EmptyQueue
        /\ FCFS_dispatch s1 = inl EmptyQueue
        /\ RR_dispatch s1 = inl EmptyQueue)
  /\ (forall fuel, FCFS (2 + fuel) lone 1 = Some (inl EmptyQueue))
  /\ (forall fuel t q,
        1 <= t -> RR (2 + fuel) lone 1 t q = Some (inl EmptyQueue))
  /\ (exists s, SJF 2 lone 1 = Some (inr s) /\ terminate s = 1).
Proof.
  split.
  { repeat constructor; unfold whole; simpl; lia. }
  split.
  { do 2 eexists. split; [vm_compute; reflexivity |]. repeat split. }
  split; [intros fuel; reflexivity |].
  split; [intros fuel [| t | t] q Ht; [lia | reflexivity | lia] |].
  eexists. split; [vm_compute; reflexivity | reflexivity].
Qed.

(** C4, on the code.  P0(arrival 0, burst 2), P1(arrival 1, burst 3) and
    P2(arrival 1, burst 1).  At tick 2 the CPU is idle and the ready queue
    holds P1 alone; P2 arrived at tick 1, has not run and needs less, yet it
    is still pending, and [SJF] dispatches P1. *)
Theorem SJF_passes_over_a_shorter_arrived_job :
  Forall valid short_behind
  /\ exists s2 x z s3 y,
       bind (SJF_init short_behind 3) (ticks SJF_body 3 2) = inr s2
       /\ time s2 = 2
       /\ temp s2 = None
       /\ ready s2 = [x] /\ processID x = 1 /\ remain x = 3
       /\ pre s2 = [z] /\ processID z = 2
       /\ arrival z <= time s2 /\ remain z = burst z /\ remain z < remain x
       /\ SJF_body s2 = inr s3
       /\ temp s3 = Some y /\ processID y = 1.
Proof.
  split.
  { repeat constructor; unfold whole; simpl; lia. }
  do 5 eexists. split; [vm_compute; reflexivity |].
  split; [reflexivity |].
  split; [reflexivity |].
  split; [reflexivity |].
  split; [reflexivity |].
  split; [reflexivity |].
  split; [reflexivity |].
  split; [reflexivity |].
  split; [simpl; lia |].
  split; [reflexivity |].
  split; [simpl; lia |].
  split; [vm_compute; reflexivity |].
  split; reflexivity.
Qed.

(** The pending queue of [SJF] is not sorted by arrival.  With P0(arrival 2,
    burst 5) ahead of P1(arrival 0, burst 1) in the array, P1 is never
    admitted, and at tick 2 [SJF] dispatches P0. *)
Lemma SJF_pending_queue_in_input_order :
  exists s0 s2 s3 y,
    SJF_init late_first 2 = inr s0
    /\ map processID (pre s0) = [0; 1]
    /\ ticks SJF_body 2 2 s0 = inr s2
    /\ time s2 = 2 /\ temp s2 = None /\ ready s2 = []
    /\ SJF_body s2 = inr s3
    /\ temp s3 = Some y /\ processID y = 0 /\ remain y = 4
    /\ map processID (pre s3) = [1].
Proof.
  do 4 eexists. split; [vm_compute; reflexivity |].
  split; [reflexivity |].
  split; [vm_compute; reflexivity |].
  split; [reflexivity |].
  split; [reflexivity |].
  split; [reflexivity |].
  split; [vm_compute; reflexivity |].
  repeat split.
Qed.

(** *** The scenario of the specification under FCFS *)






(** The same call over the queue of the specification: the first nine
    ticks go as the scenario says, and at tick 9, with P2 running and the
    ready queue empty, the [peek] of the dispatch test fails. *)
Lemma FCFS_scenario_ends_in_EmptyQueue :
  (forall fuel, FCFS (10 + fuel) scenario 3 = Some (inl EmptyQueue))
  /\ exists s9 x,
       bind (FCFS_init scenario 3) (ticks FCFS_body 3 9) = inr s9
       /\ time s9 = 9
       /\ map (fun r => (processID r, waiting r, reported_turnaround r))
              (result s9) = [(0, 0, 5); (1, 4, 7)]
       /\ temp s9 = Some x
       /\ processID x = 2 /\ waiting x = 6 /\ remain x = 7
       /\ pre s9 = [] /\ ready s9 = []
       /\ FCFS_body s9 = inl EmptyQueue.
Proof.
  split; [intros fuel; vm_compute; reflexivity |].
  do 2 eexists. split; [vm_compute; reflexivity |].
  repeat split.
Qed.

(** The same scenario under [SJF], whose dispatch is guarded: the call
    returns, with completion order P0, P1, P2, waiting times 0, 4, 6,
    turnarounds 5, 7, 14 and totals 26 and 10. *)
Lemma SJF_scenario :
  exists s,
    SJF 16 scenario 3 = Some (inr s)
    /\ map (fun r => (processID r, waiting r, turnaround r)) (result s)
       = [(0, 0, 5); (1, 4, 7); (2, 6, 14)]
    /\ total_turnaround s = 26
    /\ total_waiting s = 10.
Proof.
  eexists. split; [vm_compute; reflexivity |]. repeat split.
Qed.
(** ** Queues and sorting *)

Lemma Forall_insert : forall (P : Process -> Prop) cmp x q,
  P x -> Forall P q -> Forall P (Queue.insert cmp x q).
Proof.
  intros P cmp x q Hx Hq.
  induction Hq as [| y q Hy Hq IH]; simpl.
  - constructor; [exact Hx | constructor].
  - destruct (cmp x y <=? 0).
    + constructor; [exact Hx | constructor; assumption].
    + constructor; assumption.
Qed.

Lemma Forall_sort : forall (P : Process -> Prop) cmp q,
  Forall P q -> Forall P (Queue.sort q cmp).
Proof.
  intros P cmp q Hq. unfold Queue.sort.
  induction Hq as [| y q Hy Hq IH]; simpl.
  - constructor.
  - apply Forall_insert; assumption.
Qed.

Lemma Forall_enqueue : forall (P : Process -> Prop) q x,
  Forall P q -> P x -> Forall P (q ++ [x]).
Proof.
  intros P q x Hq Hx. apply Forall_app. split; [exact Hq |].
  constructor; [exact Hx | constructor].
Qed.

Lemma load_Forall : forall (P : Process -> Prop) p,
  Forall P p ->
  forall count i q q',
    Forall P q -> load p i count q = inr q' -> Forall P q'.
Proof.
  intros P p Hp count.
  induction count as [| count IH]; intros i q q' Hq H; simpl in H.
  - injection H as <-. exact Hq.
  - destruct (nth_error p i) as [x |] eqn:Hn; [| discriminate].
    apply (IH (S i) (Queue.enqueue q x) q'); [| exact H].
    apply Forall_enqueue; [exact Hq |].
    rewrite Forall_forall in Hp. apply Hp.
    exact (nth_error_In p i Hn).
Qed.

Lemma insert_agree : forall cmp1 cmp2 x q,
  Forall (fun y => cmp1 x y = cmp2 x y) q ->
  Queue.insert cmp1 x q = Queue.insert cmp2 x q.
Proof.
  intros cmp1 cmp2 x q Hq.
  induction Hq as [| y q Hy Hq IH]; simpl.
  - reflexivity.
  - rewrite Hy, IH. reflexivity.
Qed.

Lemma sort_agree : forall (P : Process -> Prop) cmp1 cmp2,
  (forall x y, P x -> P y -> cmp1 x y = cmp2 x y) ->
  forall q, Forall P q -> Queue.sort q cmp1 = Queue.sort q cmp2.
Proof.
  intros P cmp1 cmp2 Hc q Hq. unfold Queue.sort.
  induction Hq as [| x q Hx Hq IH]; simpl.
  - reflexivity.
  - rewrite IH. apply insert_agree.
    assert (Hs : Forall P (Queue.sort q cmp2)) by (apply Forall_sort; exact Hq).
    unfold Queue.sort in Hs.
    eapply Forall_impl; [| exact Hs].
    intros y Hy. exact (Hc x y Hx Hy).
Qed.

Lemma compare_whole : forall x y,
  whole x -> whole y -> compare_for_SJF x y = compare_by_remain x y.
Proof.
  unfold whole, compare_for_SJF, compare_by_remain.
  intros x y -> ->. reflexivity.
Qed.
(** ** Sums *)

Lemma sum_snoc : forall (f : Process -> Z) l x,
  sum (map f (l ++ [x])) = sum (map f l) + f x.
Proof.
  intros f l x. induction l as [| y l IH]; simpl.
  - lia.
  - rewrite IH. lia.
Qed.

Lemma reported_sum : forall l,
  Forall (fun x => execute x = burst x) l ->
  sum (map reported_turnaround l)
  = sum (map waiting l) + sum (map burst l).
Proof.
  intros l Hl. induction Hl as [| x l Hx Hl IH]; simpl.
  - reflexivity.
  - rewrite IH. unfold reported_turnaround. lia.
Qed.

Lemma turnaround_sum : forall l,
  Forall (fun x => turnaround x = burst x + waiting x) l ->
  sum (map turnaround l) = sum (map waiting l) + sum (map burst l).
Proof.
  intros l Hl. induction Hl as [| x l Hx Hl IH]; simpl.
  - reflexivity.
  - rewrite IH, Hx. lia.
Qed.

Lemma length_insert : forall cmp x l,
  length (Queue.insert cmp x l) = S (length l).
Proof.
  intros cmp x l. induction l as [| y l IH]; simpl.
  - reflexivity.
  - destruct (cmp x y <=? 0); simpl; [reflexivity | rewrite IH; reflexivity].
Qed.

Lemma length_sort : forall cmp l, length (Queue.sort l cmp) = length l.
Proof.
  intros cmp l. unfold Queue.sort. induction l as [| y l IH]; simpl.
  - reflexivity.
  - rewrite length_insert, IH. reflexivity.
Qed.

Lemma length_load : forall p count i q q',
  load p i count q = inr q' -> length q' = (length q + count)%nat.
Proof.
  intros p count.
  induction count as [| count IH]; intros i q q' H; simpl in H.
  - injection H as <-. lia.
  - destruct (nth_error p i) as [x |]; [| discriminate].
    apply IH in H. rewrite H. unfold Queue.enqueue.
    rewrite length_app. simpl. lia.
Qed.

(** ** Passes in which no record is put back *)

Lemma FCFS_body_pass : forall d s s',
  FCFS_body_with d s = inr s' -> pass MAX s s'.
Proof.
  intros d s s' H. apply FCFS_body_steps in H.
  destruct H as [s1 [s2 [H1 [H2 [_ H]]]]].
  exists s1, s2, (gantt s2). split; [exact H1 |]. split; [| exact H].
  apply FCFS_dispatch_cases in H2.
  destruct H2 as [-> | [x [r [E [Hn ->]]]]]; [left; reflexivity |].
  right. exists x, r, (time s1 - arrival x). auto.
Qed.

Lemma arrive_keeps : forall s s',
  arrive s = inr s' ->
  temp s' = temp s /\ time s' = time s /\ terminate s' = terminate s
  /\ result s' = result s /\ total_turnaround s' = total_turnaround s
  /\ total_waiting s' = total_waiting s
  /\ total_response s' = total_response s /\ gantt s' = gantt s.
Proof.
  intros s s' H. apply arrive_cases in H.
  destruct H as [-> | [x [pre' [_ [_ ->]]]]]; simpl; repeat split.
Qed.

Lemma takes_clocked : forall s1 s2,
  clocked s1 -> takes s1 s2 -> clocked s2 /\ time s2 = time s1.
Proof.
  unfold clocked. intros s1 s2 [Ht Hx] [-> | [x [r [w [_ [_ ->]]]]]].
  - auto.
  - simpl. split; [| reflexivity]. split; [exact Ht |].
    intros y Hy. injection Hy as <-. simpl. lia.
Qed.

Lemma RR_dispatch_takes : forall s1 s2,
  RR_dispatch s1 = inr s2 -> takes s1 s2.
Proof.
  intros s1 s2 H. apply RR_dispatch_cases in H.
  destruct H as [[-> _] | [Hn H]]; [left; reflexivity |].
  apply RR_take_cases in H. destruct H as [x [r [E ->]]].
  right. exists x, r, (time s1 - timeout x). auto.
Qed.

(** In a pass of [RR] that goes through, the quantum test of l.103 has
    failed: had it held, the clock would have been at [t] or beyond and the
    chart of l.118 would have had no slot left. *)
Lemma RR_body_quiet : forall t q s s',
  clocked s -> RR_body t q s = inr s' ->
  exists s1 s2 x,
    arrive s = inr s1 /\ RR_dispatch s1 = inr s2
    /\ RR_expire t s2 = inr s2
    /\ temp s2 = Some x /\ execute x <> t
    /\ time s2 = time s /\ time s < t
    /\ progress (Some 5)
         (mkState (pre s2) (ready s2) (temp s2) (time s2 + 1) (terminate s2)
                  (result s2) (total_turnaround s2) (total_waiting s2)
                  (total_response s2) (gantt s2 ++ [x])) = inr s'.
Proof.
  intros t q s s' Hc H. apply RR_body_steps in H.
  destruct H as [s1 [s2 [s3 [x [H1 [H2 [H3 [Hx [Ht H]]]]]]]]].
  assert (C1 : clocked s1 /\ time s1 = time s).
  { destruct (arrive_keeps _ H1) as [Et [Ec _]].
    unfold clocked in *. rewrite Et, Ec. auto. }
  destruct C1 as [C1 E1].
  destruct (takes_clocked C1 (RR_dispatch_takes _ H2)) as [C2 E2].
  pose proof H3 as H3'.
  apply RR_expire_cases in H3.
  destruct H3 as [y [Hy [[Hne ->] | [He Hk]]]].
  - exists s1, s2, x. rewrite Hy in Hx. injection Hx as <-.
    repeat split; try assumption; lia.
  - exfalso. apply RR_take_cases in Hk.
    destruct Hk as [z [r [_ ->]]]. simpl in Ht.
    destruct C2 as [_ C2]. specialize (C2 y Hy). lia.
Qed.

Lemma RR_body_pass : forall t q s s',
  clocked s -> RR_body t q s = inr s' -> pass (Some 5) s s'.
Proof.
  intros t q s s' Hc H.
  destruct (@RR_body_quiet t q s s' Hc H)
    as [s1 [s2 [x [H1 [H2 [_ [_ [_ [_ [_ Hp]]]]]]]]]].
  exists s1, s2, (gantt s2 ++ [x]).
  split; [exact H1 |]. split; [exact (RR_dispatch_takes _ H2) | exact Hp].
Qed.

Lemma pass_clocked : forall cap s s',
  clocked s -> pass cap s s' -> clocked s'.
Proof.
  intros cap s s' Hc [s1 [s2 [g [H1 [H2 H]]]]].
  assert (C1 : clocked s1).
  { destruct (arrive_keeps _ H1) as [Et [Ec _]].
    unfold clocked in *. rewrite Et, Ec. auto. }
  destruct (takes_clocked C1 H2) as [[Ht Hx] _].
  apply progress_cases in H. simpl in H. unfold clocked.
  destruct H as [[Hn ->] | [x [Ex H]]].
  - simpl. split; [lia |]. intros y Hy. specialize (Hx y Hy). lia.
  - specialize (Hx x Ex).
    destruct H as [[_ ->] | [_ ->]]; simpl.
    + split; [lia | discriminate].
    + split; [lia |]. intros y Hy. injection Hy as <-. simpl. lia.
Qed.

(** Induction over the states of a call of [FCFS] or of [RR], pass by
    pass. *)
Lemma FCFS_pass_rule : forall (I : State -> Prop) d p n,
  (forall q0, load p 0 (Z.to_nat n) Queue.init_queue = inr q0 ->
              I (start (Queue.sort q0 compare_for_arrival))) ->
  (forall s s', I s -> terminate s < n -> pass MAX s s' -> I s') ->
  forall s, FCFS_state_with d p n s -> I s.
Proof.
  intros I d p n H0 Hstep s [s0 [Hi Hr]].
  unfold FCFS_init in Hi. apply bind_inr in Hi.
  destruct Hi as [q0 [Hl Hi]]. injection Hi as <-.
  revert s Hr. apply reachable_invariant.
  - exact (H0 q0 Hl).
  - intros s s' IH Hlt Hb.
    exact (Hstep s s' IH Hlt (FCFS_body_pass _ _ Hb)).
Qed.

Lemma RR_pass_rule : forall (I : State -> Prop) p n t q,
  (forall q0, load p 0 (Z.to_nat n) Queue.init_queue = inr q0 ->
              I (start (Queue.sort q0 compare_for_arrival))) ->
  (forall s s', I s -> terminate s < n -> pass (Some 5) s s' -> I s') ->
  forall s, RR_state p n t q s -> I s.
Proof.
  intros I p n t q H0 Hstep s [s0 [Hi Hr]].
  unfold RR_init in Hi. apply bind_inr in Hi.
  destruct Hi as [q0 [Hl Hi]]. injection Hi as <-.
  assert (H : clocked s /\ I s); [| exact (proj2 H)].
  revert s Hr. apply reachable_invariant.
  - split; [| exact (H0 q0 Hl)].
    split; simpl; [lia | discriminate].
  - intros s s' [Hc IH] Hlt Hb.
    pose proof (@RR_body_pass t q s s' Hc Hb) as Hp.
    split; [exact (pass_clocked Hc Hp) | exact (Hstep s s' IH Hlt Hp)].
Qed.

Lemma RR_state_clocked : forall p n t q s,
  RR_state p n t q s -> clocked s.
Proof.
  intros p n t q. apply RR_pass_rule.
  - intros q0 _. split; simpl; [lia | discriminate].
  - intros s s' Hc _ Hp. exact (pass_clocked Hc Hp).
Qed.

(** ** Records in the queues are untouched *)

Lemma pass_queues : forall (P : Process -> Prop) cap s s',
  Forall P (pre s) -> Forall P (ready s) -> pass cap s s' ->
  Forall P (pre s') /\ Forall P (ready s').
Proof.
  intros P cap s s' Hp Hr [s1 [s2 [g [H1 [H2 H]]]]].
  assert (I1 : Forall P (pre s1) /\ Forall P (ready s1)).
  { apply arrive_cases in H1.
    destruct H1 as [-> | [x [pre' [E [_ ->]]]]]; [auto |].
    rewrite E in Hp. inversion Hp; subst. simpl.
    split; [assumption | apply Forall_enqueue; assumption]. }
  assert (I2 : Forall P (pre s2) /\ Forall P (ready s2)).
  { destruct H2 as [-> | [x [ready' [w [E [_ ->]]]]]]; [auto |].
    destruct I1 as [I1 I1']. rewrite E in I1'. inversion I1'; subst. simpl.
    split; assumption. }
  apply progress_cases in H. simpl in H.
  destruct H as [[_ ->] | [x [_ H]]].
  - exact I2.
  - destruct H as [[_ ->] | [_ ->]]; exact I2.
Qed.

Lemma pass_queues_whole : forall cap s s',
  queues_whole s -> pass cap s s' -> queues_whole s'.
Proof.
  unfold queues_whole. intros cap s s' [Hp Hr] H.
  exact (pass_queues Hp Hr H).
Qed.

Lemma SJF_body_queues_whole : forall cmp s s',
  queues_whole s -> SJF_body_with cmp s = inr s' -> queues_whole s'.
Proof.
  unfold queues_whole. intros cmp s s' [Hp Hr] H.
  apply SJF_body_steps in H. destruct H as [s1 [s2 [H1 [H2 [_ H]]]]].
  assert (I1 : Forall whole (pre s1) /\ Forall whole (ready s1)).
  { apply SJF_arrive_cases in H1.
    destruct H1 as [-> | [x [pre' [E [_ ->]]]]]; [auto |].
    rewrite E in Hp. inversion Hp; subst. simpl.
    split; [assumption |].
    apply Forall_sort. apply Forall_enqueue; assumption. }
  assert (I2 : Forall whole (pre s2) /\ Forall whole (ready s2)).
  { apply SJF_dispatch_cases in H2.
    destruct H2 as [-> | [x [ready' [E [_ ->]]]]]; [auto |].
    destruct I1 as [I1 I1']. rewrite E in I1'. inversion I1'; subst. simpl.
    split; assumption. }
  apply SJF_progress_cases in H. simpl in H.
  destruct H as [[_ ->] | [x [_ H]]].
  - exact I2.
  - destruct H as [[_ ->] | [_ ->]]; exact I2.
Qed.

Lemma start_queues_whole : forall p n q0,
  Forall whole p ->
  load p 0 (Z.to_nat n) Queue.init_queue = inr q0 ->
  queues_whole (start (Queue.sort q0 compare_for_arrival)).
Proof.
  intros p n q0 Hp Hl. split; simpl; [| constructor].
  apply Forall_sort.
  eapply load_Forall; [exact Hp | apply Forall_nil | exact Hl].
Qed.

Lemma nonpreemptive_queues_whole : forall p n s,
  Forall whole p ->
  FCFS_state p n s \/ SJF_state p n s ->
  queues_whole s.
Proof.
  intros p n s Hp [Hs | [s0 [Hi Hr]]].
  - revert s Hs. apply FCFS_pass_rule.
    + intros q0 Hl. exact (start_queues_whole _ Hp Hl).
    + intros s s' IH _ Hb. exact (pass_queues_whole IH Hb).
  - unfold SJF_init in Hi. apply bind_inr in Hi.
    destruct Hi as [q0 [Hl Hi]]. injection Hi as <-.
    revert s Hr. apply reachable_invariant.
    + split; simpl; [| constructor].
      eapply load_Forall; [exact Hp | apply Forall_nil | exact Hl].
    + intros s s' IH _ Hb. eapply SJF_body_queues_whole; eassumption.
Qed.

Lemma SJF_body_by_remain : forall s,
  queues_whole s -> SJF_body_with compare_by_remain s = SJF_body s.
Proof.
  unfold SJF_body, SJF_body_with, SJF_arrive_with, queues_whole.
  intros s [Hp Hr].
  destruct (pre s) as [| x pre'] eqn:E; simpl; [reflexivity |].
  destruct (arrival x =? time s); simpl; [| reflexivity].
  inversion Hp; subst.
  rewrite (@sort_agree whole compare_for_SJF compare_by_remain compare_whole
             (Queue.timeout (ready s) x)).
  - reflexivity.
  - apply Forall_enqueue; assumption.
Qed.

(** C10.  When the records of the caller start whole ([remain = burst]), at
    every tick of an [FCFS] or [SJF] call every record in the ready queue
    (and in the pending queue) has [remain = burst]; so sorting the ready
    queue with [compare_for_SJF], which looks at [burst], orders it as a
    sort by [remain] does, and the body of [SJF] run with the by-[remain]
    comparator does what the body with [compare_for_SJF] does. *)
Theorem ready_records_are_whole : forall p n s,
  Forall whole p ->
  FCFS_state p n s \/ SJF_state p n s ->
  Forall whole (ready s)
  /\ Forall whole (pre s)
  /\ Queue.sort (ready s) compare_for_SJF
     = Queue.sort (ready s) compare_by_remain
  /\ SJF_body_with compare_by_remain s = SJF_body s.
Proof.
  intros p n s Hp Hs.
  assert (Hq : queues_whole s)
    by (eapply nonpreemptive_queues_whole; eassumption).
  destruct Hq as [Hpre Hready].
  split; [exact Hready |].
  split; [exact Hpre |].
  split.
  - apply (@sort_agree whole compare_for_SJF compare_by_remain compare_whole).
    exact Hready.
  - apply SJF_body_by_remain. split; assumption.
Qed.

Lemma ready_records_are_whole_witness :
  exists s,
    bind (SJF_init scenario 3) (ticks SJF_body 3 3) = inr s
    /\ map processID (ready s) = [1; 2]
    /\ Forall whole (ready s)
    /\ Forall whole (pre s)
    /\ Queue.sort (ready s) compare_for_SJF
       = Queue.sort (ready s) compare_by_remain
    /\ SJF_body_with compare_by_remain s = SJF_body s.
Proof.
  eexists. split; [vm_compute; reflexivity |].
  split; [reflexivity |].
  apply (@ready_records_are_whole scenario 3).
  - repeat constructor.
  - right. eexists. split; [reflexivity |].
    apply ticks_reachable with 3%nat. vm_compute. reflexivity.
Defined.

(** ** Conservation in FCFS and RR *)

Lemma pass_inv : forall cap n s s',
  FCFS_inv n s -> terminate s < n -> pass cap s s' -> FCFS_inv n s'.
Proof.
  intros cap n s s' [Hq [Ht [Hres [Htt [Htw Hbusy]]]]] Hlt Hb.
  split; [eapply pass_queues_whole; eassumption |].
  destruct Hb as [s1 [s2 [g [H1 [H2 Hb]]]]].
  assert (I1 : queues_whole s1 /\ temp s1 = temp s /\ result s1 = result s
               /\ total_turnaround s1 = total_turnaround s
               /\ total_waiting s1 = total_waiting s
               /\ terminate s1 = terminate s).
  { apply arrive_cases in H1.
    destruct H1 as [-> | [x [pre' [E [_ ->]]]]]; [tauto |].
    destruct Hq as [Hp Hr]. rewrite E in Hp. inversion Hp; subst. simpl.
    repeat split; try reflexivity; [assumption |].
    apply Forall_enqueue; assumption. }
  destruct I1 as [Hq1 [Et [Er [Ett [Etw Ete]]]]].
  assert (I2 : (forall x, temp s2 = Some x -> execute x + remain x = burst x)
               /\ result s2 = result s
               /\ total_turnaround s2 = total_turnaround s
               /\ total_waiting s2
                  = sum (map waiting (result s)) + wait_of (temp s2)
               /\ terminate s2 = terminate s).
  { destruct H2 as [-> | [x [ready' [w [E [Hn ->]]]]]].
    - rewrite Et, Etw. auto.
    - destruct Hq1 as [_ Hr1]. rewrite E in Hr1. inversion Hr1; subst.
      simpl. rewrite Hn in Et. rewrite <- Et in Htw. simpl in Htw.
      repeat split; try assumption.
      + intros y Hy. injection Hy as <-. simpl.
        match goal with H : whole x |- _ => unfold whole in H; lia end.
      + lia. }
  destruct I2 as [Ht2 [Er2 [Ett2 [Etw2 Ete2]]]].
  unfold busy_below.
  apply progress_cases in Hb. simpl in Hb.
  destruct Hb as [[Hn ->] | [x [Hx H]]].
  - simpl in *. rewrite Er2, Ett2, Etw2.
    repeat split; try assumption.
    intros _. lia.
  - pose proof (Ht2 x Hx) as Hex.
    destruct H as [[Hz ->] | [Hz ->]]; simpl;
      rewrite ?Er2, ?Ett2, ?Etw2, ?Hx; simpl.
    + split; [intros y Hy; discriminate |].
      split; [apply Forall_enqueue; [exact Hres | simpl; lia] |].
      split; [rewrite sum_snoc; unfold reported_turnaround at 2; simpl; lia |].
      split; [rewrite sum_snoc; simpl; lia |].
      intros Hne. exfalso. apply Hne. reflexivity.
    + split; [intros y Hy; injection Hy as <-; simpl; lia |].
      split; [exact Hres |].
      split; [exact Htt |].
      split; [reflexivity |].
      intros _. lia.
Qed.

Lemma start_inv : forall p n q0,
  Forall whole p ->
  load p 0 (Z.to_nat n) Queue.init_queue = inr q0 ->
  FCFS_inv n (start (Queue.sort q0 compare_for_arrival)).
Proof.
  intros p n q0 Hp Hl.
  split; [exact (start_queues_whole _ Hp Hl) |].
  repeat split; simpl; try constructor; try discriminate.
  intros H. exfalso. apply H. reflexivity.
Qed.

Lemma FCFS_state_inv : forall d p n s,
  Forall whole p -> FCFS_state_with d p n s -> FCFS_inv n s.
Proof.
  intros d p n s Hp. revert s. apply FCFS_pass_rule.
  - intros q0 Hl. exact (start_inv _ Hp Hl).
  - intros s s' IH Hlt Hb. exact (pass_inv IH Hlt Hb).
Qed.

Lemma RR_state_inv : forall p n t q s,
  Forall whole p -> RR_state p n t q s -> FCFS_inv n s.
Proof.
  intros p n t q s Hp. revert s. apply RR_pass_rule.
  - intros q0 Hl. exact (start_inv _ Hp Hl).
  - intros s s' IH Hlt Hb. exact (pass_inv IH Hlt Hb).
Qed.

Lemma inv_conserves : forall n s,
  FCFS_inv n s -> n <= terminate s ->
  sum (map reported_turnaround (result s))
  = sum (map waiting (result s)) + sum (map burst (result s))
  /\ total_turnaround s = sum (map reported_turnaround (result s))
  /\ total_waiting s = sum (map waiting (result s)).
Proof.
  intros n s [_ [_ [Hres [Htt [Htw Hbusy]]]]] Hn.
  split; [apply reported_sum; exact Hres |].
  split; [exact Htt |].
  destruct (temp s) as [x |] eqn:Ht.
  - exfalso. unfold busy_below in Hbusy. rewrite Ht in Hbusy.
    assert (terminate s < n) by (apply Hbusy; discriminate). lia.
  - simpl in Htw. lia.
Qed.

(** In a call of [FCFS] that returns, on records that start whole, the
    reported turnarounds of the finished records add up to their waiting
    times plus their bursts, and the two running totals are these sums. *)
Lemma FCFS_conserves : forall d fuel p n s,
  Forall whole p ->
  FCFS_with d fuel p n = Some (inr s) ->
  sum (map reported_turnaround (result s))
  = sum (map waiting (result s)) + sum (map burst (result s))
  /\ total_turnaround s = sum (map reported_turnaround (result s))
  /\ total_waiting s = sum (map waiting (result s)).
Proof.
  intros d fuel p n s Hp H.
  apply FCFS_final_state_with in H. destruct H as [Hs Hn].
  exact (inv_conserves (FCFS_state_inv Hp Hs) Hn).
Qed.

(** The same of a call of [RR] that returns: no record of it was put back
    in the ready queue, so each finished record has run its burst in one
    go. *)
Lemma RR_conserves : forall fuel p n t q s,
  Forall whole p ->
  RR fuel p n t q = Some (inr s) ->
  sum (map reported_turnaround (result s))
  = sum (map waiting (result s)) + sum (map burst (result s))
  /\ total_turnaround s = sum (map reported_turnaround (result s))
  /\ total_waiting s = sum (map waiting (result s)).
Proof.
  intros fuel p n t q s Hp H.
  apply RR_final_state in H. destruct H as [Hs Hn].
  exact (inv_conserves (RR_state_inv Hp Hs) Hn).
Qed.

(** ** Conservation in SJF *)

Lemma SJF_body_inv : forall n s s',
  SJF_inv n s -> terminate s < n -> SJF_body s = inr s' -> SJF_inv n s'.
Proof.
  intros n s s' [Hres [Htt [Htw Hbusy]]] Hlt Hb.
  apply SJF_body_steps in Hb. destruct Hb as [s1 [s2 [H1 [H2 [_ Hb]]]]].
  assert (I1 : temp s1 = temp s /\ result s1 = result s
               /\ total_turnaround s1 = total_turnaround s
               /\ total_waiting s1 = total_waiting s
               /\ terminate s1 = terminate s).
  { apply SJF_arrive_cases in H1.
    destruct H1 as [-> | [x [pre' [_ [_ ->]]]]]; simpl; tauto. }
  destruct I1 as [Et [Er [Ett [Etw Ete]]]].
  assert (I2 : result s2 = result s
               /\ total_turnaround s2 = total_turnaround s
               /\ total_waiting s2
                  = sum (map waiting (result s)) + wait_of (temp s2)
               /\ terminate s2 = terminate s).
  { apply SJF_dispatch_cases in H2.
    destruct H2 as [-> | [x [ready' [_ [Hn ->]]]]].
    - rewrite Et, Etw. auto.
    - simpl. rewrite Hn in Et. rewrite <- Et in Htw. simpl in Htw.
      split; [exact Er |]. split; [exact Ett |]. split; [lia | exact Ete]. }
  destruct I2 as [Er2 [Ett2 [Etw2 Ete2]]].
  unfold SJF_inv, busy_below.
  apply SJF_progress_cases in Hb. simpl in Hb.
  destruct Hb as [[Hn ->] | [x [Hx H]]].
  - simpl in *. rewrite Er2, Ett2, Etw2.
    repeat split; try assumption.
    intros _. lia.
  - destruct H as [[Hz ->] | [Hz ->]]; simpl;
      rewrite ?Er2, ?Ett2, ?Etw2, ?Hx; simpl.
    + split; [apply Forall_enqueue; [exact Hres | reflexivity] |].
      split; [rewrite sum_snoc; simpl; lia |].
      split; [rewrite sum_snoc; simpl; lia |].
      intros Hne. exfalso. apply Hne. reflexivity.
    + split; [exact Hres |].
      split; [exact Htt |].
      split; [reflexivity |].
      intros _. lia.
Qed.

Lemma SJF_state_inv : forall p n s, SJF_state p n s -> SJF_inv n s.
Proof.
  intros p n s [s0 [Hi Hr]].
  unfold SJF_init in Hi. apply bind_inr in Hi.
  destruct Hi as [q0 [Hl Hi]]. injection Hi as <-.
  revert s Hr. apply reachable_invariant.
  - repeat split; simpl; try constructor.
    intros H. exfalso. apply H. reflexivity.
  - intros s s' IH Hlt Hb. eapply SJF_body_inv; eassumption.
Qed.

(** In a call of [SJF] that returns, the turnarounds of the finished records
    add up to their waiting times plus their bursts, and the two running
    totals are these sums. *)
Lemma SJF_conserves : forall fuel p n s,
  SJF fuel p n = Some (inr s) ->
  sum (map turnaround (result s))
  = sum (map waiting (result s)) + sum (map burst (result s))
  /\ total_turnaround s = sum (map turnaround (result s))
  /\ total_waiting s = sum (map waiting (result s)).
Proof.
  intros fuel p n s H.
  apply SJF_final_state in H. destruct H as [Hs Hn].
  destruct (SJF_state_inv Hs) as [Hres [Htt [Htw Hbusy]]].
  split; [apply turnaround_sum; exact Hres |].
  split; [exact Htt |].
  destruct (temp s) as [x |] eqn:Ht.
  - exfalso. unfold busy_below in Hbusy. rewrite Ht in Hbusy.
    assert (terminate s < n) by (apply Hbusy; discriminate). lia.
  - simpl in Htw. lia.
Qed.

(** C5.  In a call of [FCFS], [SJF] or [RR] that returns, on records that
    start with [remain = burst], the turnaround times of the finished
    records (the reported [execute + waiting] in [FCFS] and [RR], the
    [turnaround] field in [SJF]) add up to their waiting times plus their
    bursts, exactly; the running totals of the call are these very sums.
    For [FCFS] this holds whatever [peek] does on an empty queue. *)
Theorem turnaround_sums_conserve : forall d fuel p n t q s,
  Forall whole p ->
  FCFS_with d fuel p n = Some (inr s)
  \/ SJF fuel p n = Some (inr s)
  \/ RR fuel p n t q = Some (inr s) ->
  (FCFS_with d fuel p n = Some (inr s) \/ RR fuel p n t q = Some (inr s) ->
   sum (map reported_turnaround (result s))
   = sum (map waiting (result s)) + sum (map burst (result s)))
  /\ (SJF fuel p n = Some (inr s) ->
      sum (map turnaround (result s))
      = sum (map waiting (result s)) + sum (map burst (result s)))
  /\ total_turnaround s
     = sum (map waiting (result s)) + sum (map burst (result s))
  /\ total_waiting s = sum (map waiting (result s)).
Proof.
  intros d fuel p n t q s Hp H.
  split.
  { intros [H' | H'].
    - exact (proj1 (@FCFS_conserves d fuel p n s Hp H')).
    - exact (proj1 (@RR_conserves fuel p n t q s Hp H')). }
  split.
  { intros H'. exact (proj1 (@SJF_conserves fuel p n s H')). }
  destruct H as [H | [H | H]].
  - destruct (@FCFS_conserves d fuel p n s Hp H) as [E1 [E2 E3]].
    split; [lia | exact E3].
  - destruct (@SJF_conserves fuel p n s H) as [E1 [E2 E3]].
    split; [lia | exact E3].
  - destruct (@RR_conserves fuel p n t q s Hp H) as [E1 [E2 E3]].
    split; [lia | exact E3].
Qed.

Lemma turnaround_sums_conserve_witness :
  Forall whole relay
  /\ exists s,
       RR 2 relay 2 2 1 = Some (inr s)
       /\ sum (map reported_turnaround (result s))
          = sum (map waiting (result s)) + sum (map burst (result s)).
Proof.
  assert (Hw : Forall whole relay) by (repeat constructor).
  split; [exact Hw |].
  eexists. split; [vm_compute; reflexivity |].
  refine (proj1 (@turnaround_sums_conserve (raise EmptyQueue) 2%nat relay 2
                   2 1 _ Hw _) _).
  - right. right. vm_compute. reflexivity.
  - right. vm_compute. reflexivity.
Defined.

(** ** Dispatch in RR *)

(** [RR] never reads its parameter [q]. *)
Lemma RR_never_reads_q : forall fuel p n t q q',
  RR fuel p n t q' = RR fuel p n t q.
Proof.
  reflexivity.
Qed.

Lemma pass_arrived : forall cap s s',
  Forall (fun x => arrival x <= time s) (ready s) ->
  pass cap s s' ->
  Forall (fun x => arrival x <= time s') (ready s').
Proof.
  intros cap s s' Ha [s1 [s2 [g [H1 [H2 H]]]]].
  assert (I1 : Forall (fun x => arrival x <= time s1) (ready s1)).
  { apply arrive_cases in H1.
    destruct H1 as [-> | [x [pre' [_ [Hx ->]]]]]; [exact Ha |].
    simpl. apply Forall_enqueue; [exact Ha | lia]. }
  assert (I2 : Forall (fun x => arrival x <= time s2 + 1) (ready s2)).
  { destruct H2 as [-> | [x [ready' [w [E [_ ->]]]]]]; simpl.
    - eapply Forall_impl; [| exact I1]. simpl. intros z Hz. lia.
    - rewrite E in I1. inversion I1; subst.
      eapply Forall_impl; [| eassumption]. simpl. intros z Hz. lia. }
  apply progress_cases in H. simpl in H.
  destruct H as [[_ ->] | [x [_ H]]].
  - exact I2.
  - destruct H as [[_ ->] | [_ ->]]; exact I2.
Qed.

Lemma RR_state_arrived : forall p n t q s,
  RR_state p n t q s -> Forall (fun x => arrival x <= time s) (ready s).
Proof.
  intros p n t q. apply RR_pass_rule.
  - intros q0 _. constructor.
  - intros s s' IH _ Hp. exact (pass_arrived IH Hp).
Qed.




(** What the preemption block does when [execute] has reached [t]: the
    running record goes to the back of the ready queue with [timeout] set to
    the current tick, and the front of that queue is dispatched at once. *)
Lemma RR_expire_requeues : forall t s s' x,
  RR_expire t s = inr s' ->
  temp s = Some x ->
  execute x = t ->
  exists y ready',
    ready s ++ [set_timeout x (time s)] = y :: ready'
    /\ ready s' = ready'
    /\ temp s' = Some (set_execute (set_waiting y (time s - timeout y)) 0)
    /\ total_turnaround s' = total_turnaround s + (execute x + waiting x).
Proof.
  intros t s s' x H Hx He. apply RR_expire_cases in H.
  destruct H as [x' [Hx' H]]. rewrite Hx in Hx'. injection Hx' as <-.
  destruct H as [[Hne _] | [_ H]]; [contradiction |].
  apply RR_take_cases in H. destruct H as [y [ready' [E ->]]].
  simpl in E. exists y, ready'. repeat split. exact E.
Qed.

(** The arrival block moves at most one record per pass. *)
Lemma arrive_moves_at_most_one : forall s s',
  arrive s = inr s' ->
  (length (pre s) <= S (length (pre s')))%nat
  /\ (length (ready s') <= S (length (ready s)))%nat.
Proof.
  intros s s' H. apply arrive_cases in H.
  destruct H as [-> | [x [pre' [E [_ ->]]]]].
  - split; apply Nat.le_succ_diag_r.
  - rewrite E. simpl. rewrite length_app. simpl. split; [apply le_n | ].
    rewrite Nat.add_1_r. apply le_n.
Qed.

(** ** The ready queue of SJF *)

Lemma compare_for_SJF_le : forall x y,
  (compare_for_SJF x y <=? 0) = (burst x <=? burst y).
Proof.
  intros x y. unfold compare_for_SJF. rewrite Z.gtb_ltb.
  destruct (Z.ltb_spec (burst y) (burst x));
    destruct (Z.ltb_spec (burst x) (burst y));
    destruct (Z.leb_spec (burst x) (burst y)); simpl; try reflexivity; lia.
Qed.

Lemma insert_by_burst : forall x l,
  by_burst l -> by_burst (Queue.insert compare_for_SJF x l).
Proof.
  intros x l. induction l as [| y l IH]; intros Hl; simpl.
  - split; constructor.
  - destruct Hl as [Hy Hl]. rewrite compare_for_SJF_le.
    destruct (Z.leb_spec (burst x) (burst y)) as [Hle | Hgt].
    + split; [| split; assumption].
      constructor; [exact Hle |].
      eapply Forall_impl; [| exact Hy]. simpl. intros z Hz. lia.
    + split; [| exact (IH Hl)].
      apply Forall_insert; [lia | exact Hy].
Qed.

Lemma sort_by_burst : forall l, by_burst (Queue.sort l compare_for_SJF).
Proof.
  intros l. unfold Queue.sort. induction l as [| x l IH]; simpl.
  - exact I.
  - apply insert_by_burst. exact IH.
Qed.

Lemma SJF_arrive_ready_ok : forall s s',
  SJF_ready_ok s -> SJF_arrive s = inr s' ->
  SJF_ready_ok s' /\ time s' = time s /\ temp s' = temp s.
Proof.
  unfold SJF_ready_ok. intros s s' [Hb Ha] H.
  apply SJF_arrive_cases in H.
  destruct H as [-> | [x [pre' [_ [Hx ->]]]]]; [auto |].
  simpl. repeat split.
  - apply sort_by_burst.
  - apply Forall_sort. apply Forall_enqueue; [exact Ha | lia].
Qed.

Lemma SJF_body_ready_ok : forall s s',
  SJF_ready_ok s -> SJF_body s = inr s' -> SJF_ready_ok s'.
Proof.
  intros s s' Hok H. unfold SJF_body in H.
  apply SJF_body_steps in H. destruct H as [s1 [s2 [H1 [H2 [_ H]]]]].
  destruct (@SJF_arrive_ready_ok s s1 Hok H1) as [[Hb Ha] _].
  assert (I2 : by_burst (ready s2)
               /\ Forall (fun x => arrival x <= time s2 + 1) (ready s2)).
  { apply SJF_dispatch_cases in H2.
    destruct H2 as [-> | [x [ready' [E [_ ->]]]]]; simpl.
    - split; [exact Hb |].
      eapply Forall_impl; [| exact Ha]. simpl. intros z Hz. lia.
    - rewrite E in Hb, Ha. destruct Hb as [_ Hb]. inversion Ha; subst.
      split; [exact Hb |].
      eapply Forall_impl; [| eassumption]. simpl. intros z Hz. lia. }
  unfold SJF_ready_ok.
  apply SJF_progress_cases in H. simpl in H.
  destruct H as [[_ ->] | [x [_ H]]].
  - exact I2.
  - destruct H as [[_ ->] | [_ ->]]; exact I2.
Qed.

Lemma SJF_state_ready_ok : forall p n s, SJF_state p n s -> SJF_ready_ok s.
Proof.
  intros p n s [s0 [Hi Hr]].
  unfold SJF_init in Hi. apply bind_inr in Hi.
  destruct Hi as [q0 [_ Hi]]. injection Hi as <-.
  revert s Hr. apply reachable_invariant.
  - split; simpl; [exact I | constructor].
  - intros s s' IH _ Hb. eapply SJF_body_ready_ok; eassumption.
Qed.

(** X16.  The part of SJF greediness that the code has: whenever the CPU is idle
    and the ready queue, once the arrival of the tick is in, is not empty,
    [SJF] dispatches its front record, and no record in the ready queue has
    a smaller burst. *)
Lemma SJF_dispatches_least_ready_burst : forall p n s s1 s2,
  SJF_state p n s ->
  temp s = None ->
  SJF_arrive s = inr s1 ->
  ready s1 <> [] ->
  SJF_dispatch s1 = inr s2 ->
  exists x ready',
    ready s1 = x :: ready'
    /\ temp s2 = Some (set_waiting x (time s - arrival x))
    /\ ready s2 = ready'
    /\ Forall (fun z => burst x <= burst z) ready'.
Proof.
  intros p n s s1 s2 Hs Hidle H1 Hne H2.
  destruct (@SJF_arrive_ready_ok s s1 (SJF_state_ready_ok Hs) H1)
    as [[Hb Ha] [Etime Etemp]].
  unfold SJF_dispatch in H2.
  destruct (ready s1) as [| x ready'] eqn:E; [contradiction |].
  simpl in H2. rewrite Etemp, Hidle in H2. simpl in H2.
  inversion Ha; subst.
  replace (arrival x <=? time s1) with true in H2
    by (symmetry; apply Z.leb_le; assumption).
  simpl in H2.
  apply bind_inr in H2. destruct H2 as [w [Hw H2]].
  apply as_int_inr in Hw. destruct Hw as [-> _].
  injection H2 as <-. simpl.
  exists x, ready'. rewrite Etime. destruct Hb as [Hx _].
  repeat split. exact Hx.
Qed.

(** ** Conservation at every tick of FCFS and SJF *)

(** X18.  Over the records finished so far, at any tick of an [FCFS] call on
    records that start whole, whether or not the call goes on to return. *)
Lemma FCFS_finished_conserve : forall p n s,
  Forall whole p ->
  FCFS_state p n s ->
  sum (map reported_turnaround (result s))
  = sum (map waiting (result s)) + sum (map burst (result s))
  /\ total_turnaround s = sum (map reported_turnaround (result s)).
Proof.
  intros p n s Hp Hs.
  destruct (@FCFS_state_inv (raise EmptyQueue) p n s Hp Hs)
    as [_ [_ [Hres [Htt _]]]].
  split; [apply reported_sum; exact Hres | exact Htt].
Qed.

Lemma SJF_finished_conserve : forall p n s,
  SJF_state p n s ->
  sum (map turnaround (result s))
  = sum (map waiting (result s)) + sum (map burst (result s))
  /\ total_turnaround s = sum (map turnaround (result s)).
Proof.
  intros p n s Hs.
  destruct (@SJF_state_inv p n s Hs) as [Hres [Htt _]].
  split; [apply turnaround_sum; exact Hres | exact Htt].
Qed.

(** * Further properties of the engines *)

(** ** Induction over the states of a call *)

Lemma FCFS_state_rule : forall (I : State -> Prop) p n,
  (forall q0, load p 0 (Z.to_nat n) Queue.init_queue = inr q0 ->
              I (start (Queue.sort q0 compare_for_arrival))) ->
  (forall s s', I s -> terminate s < n -> FCFS_body s = inr s' -> I s') ->
  forall s, FCFS_state p n s -> I s.
Proof.
  intros I p n H0 Hstep s [s0 [Hi Hr]].
  unfold FCFS_init in Hi. apply bind_inr in Hi.
  destruct Hi as [q0 [Hl Hi]]. injection Hi as <-.
  revert s Hr. apply reachable_invariant; [exact (H0 q0 Hl) | exact Hstep].
Qed.

Lemma SJF_state_rule : forall (I : State -> Prop) p n,
  (forall q0, load p 0 (Z.to_nat n) Queue.init_queue = inr q0 ->
              I (start q0)) ->
  (forall s s', I s -> terminate s < n -> SJF_body s = inr s' -> I s') ->
  forall s, SJF_state p n s -> I s.
Proof.
  intros I p n H0 Hstep s [s0 [Hi Hr]].
  unfold SJF_init in Hi. apply bind_inr in Hi.
  destruct Hi as [q0 [Hl Hi]]. injection Hi as <-.
  revert s Hr. apply reachable_invariant; [exact (H0 q0 Hl) | exact Hstep].
Qed.

(** ** The comparator of SJF *)

(** X1.  [compare_for_SJF] is a three-way comparison of bursts fit for a sort: it
    answers -1, 0 or 1, swapping its arguments negates the answer, it is
    negative exactly when the first burst is smaller and zero exactly when
    the bursts are equal, and "not above" is transitive. *)
Theorem compare_for_SJF_three_way : forall a b c,
  (compare_for_SJF a b = -1 \/ compare_for_SJF a b = 0
   \/ compare_for_SJF a b = 1)
  /\ compare_for_SJF a b = - compare_for_SJF b a
  /\ (compare_for_SJF a b < 0 <-> burst a < burst b)
  /\ (compare_for_SJF a b = 0 <-> burst a = burst b)
  /\ (compare_for_SJF a b <= 0 -> compare_for_SJF b c <= 0 ->
      compare_for_SJF a c <= 0).
Proof.
  intros a b c. unfold compare_for_SJF. rewrite !Z.gtb_ltb.
  destruct (Z.ltb_spec (burst b) (burst a));
    destruct (Z.ltb_spec (burst a) (burst b));
    destruct (Z.ltb_spec (burst c) (burst b));
    destruct (Z.ltb_spec (burst b) (burst c));
    destruct (Z.ltb_spec (burst c) (burst a));
    destruct (Z.ltb_spec (burst a) (burst c)); simpl; lia.
Qed.

(** ** Calls with nothing to do *)

(** X2.  Called with [n <= 0], each engine loads nothing, never enters its loop
    and returns at once: no record finished, clock and totals at zero,
    whatever the array and, for [RR], whatever [t] and [q]. *)
Theorem engines_return_at_once_without_processes : forall fuel p n t q,
  n <= 0 ->
  FCFS fuel p n = Some (inr (start []))
  /\ SJF fuel p n = Some (inr (start []))
  /\ RR fuel p n t q = Some (inr (start [])).
Proof.
  intros fuel p n t q Hn.
  assert (E : Z.to_nat n = 0%nat) by lia.
  assert (G : (0 <? n) = false) by (apply Z.ltb_ge; exact Hn).
  unfold FCFS, FCFS_with, FCFS_init, SJF, SJF_init, RR, RR_init.
  rewrite E. simpl.
  destruct fuel as [| fuel]; simpl; rewrite G; repeat split.
Qed.

Lemma engines_return_at_once_without_processes_witness :
  FCFS 0 scenario (-3) = Some (inr (start []))
  /\ SJF 0 scenario (-3) = Some (inr (start []))
  /\ RR 0 scenario (-3) 2 2 = Some (inr (start [])).
Proof.
  apply (@engines_return_at_once_without_processes 0%nat scenario (-3) 2 2).
  lia.
Defined.

(** ** Response totals *)

Lemma SJF_arrive_keeps : forall cmp s s',
  SJF_arrive_with cmp s = inr s' ->
  temp s' = temp s /\ time s' = time s /\ terminate s' = terminate s
  /\ result s' = result s /\ total_turnaround s' = total_turnaround s
  /\ total_waiting s' = total_waiting s
  /\ total_response s' = total_response s /\ gantt s' = gantt s.
Proof.
  intros cmp s s' H. apply SJF_arrive_cases in H.
  destruct H as [-> | [x [pre' [_ [_ ->]]]]]; simpl; repeat split.
Qed.

Lemma pass_response : forall cap n s s',
  total_waiting s = total_response s + wait_of (temp s) ->
  terminate s < n ->
  pass cap s s' ->
  total_waiting s' = total_response s' + wait_of (temp s')
  /\ busy_below n s'.
Proof.
  intros cap n s s' J Hlt [s1 [s2 [g [H1 [H2 H]]]]].
  destruct (arrive_keeps _ H1) as [Et [_ [Ee [_ [_ [Ew [Er _]]]]]]].
  assert (J2 : total_waiting s2 = total_response s2 + wait_of (temp s2)
               /\ terminate s2 = terminate s).
  { destruct H2 as [-> | [x [ready' [w [_ [Hn ->]]]]]]; simpl.
    - rewrite Et, Ew, Er. auto.
    - rewrite Hn in Et. rewrite <- Et in J. simpl in J.
      split; [lia | exact Ee]. }
  destruct J2 as [J2 Ee2].
  apply progress_cases in H. simpl in H. unfold busy_below.
  destruct H as [[Hn ->] | [x [Hx H]]].
  - simpl. split; [exact J2 | intros _; lia].
  - rewrite Hx in J2. simpl in J2.
    destruct H as [[_ ->] | [_ ->]]; simpl.
    + split; [lia | intros Hne; exfalso; apply Hne; reflexivity].
    + split; [lia | intros _; lia].
Qed.

Lemma SJF_body_response : forall n s s',
  total_waiting s = total_response s + wait_of (temp s) ->
  terminate s < n ->
  SJF_body s = inr s' ->
  total_waiting s' = total_response s' + wait_of (temp s')
  /\ busy_below n s'.
Proof.
  unfold SJF_body. intros n s s' J Hlt H.
  apply SJF_body_steps in H. destruct H as [s1 [s2 [H1 [H2 [_ H]]]]].
  destruct (SJF_arrive_keeps _ _ H1) as [Et [_ [Ee [_ [_ [Ew [Er _]]]]]]].
  assert (J2 : total_waiting s2 = total_response s2 + wait_of (temp s2)
               /\ terminate s2 = terminate s).
  { apply SJF_dispatch_cases in H2.
    destruct H2 as [-> | [x [ready' [_ [Hn ->]]]]]; simpl.
    - rewrite Et, Ew, Er. auto.
    - rewrite Hn in Et. rewrite <- Et in J. simpl in J.
      split; [lia | exact Ee]. }
  destruct J2 as [J2 Ee2].
  apply SJF_progress_cases in H. simpl in H. unfold busy_below.
  destruct H as [[Hn ->] | [x [Hx H]]].
  - simpl. split; [exact J2 | intros _; lia].
  - rewrite Hx in J2. simpl in J2.
    destruct H as [[_ ->] | [_ ->]]; simpl.
    + split; [lia | intros Hne; exfalso; apply Hne; reflexivity].
    + split; [lia | intros _; lia].
Qed.

Lemma start_response : forall n q0,
  total_waiting (start q0)
  = total_response (start q0) + wait_of (temp (start q0))
  /\ busy_below n (start q0).
Proof.
  intros n q0. split; [reflexivity |].
  intros H. exfalso. apply H. reflexivity.
Qed.

Lemma engine_state_response : forall p n t q s,
  FCFS_state p n s \/ SJF_state p n s \/ RR_state p n t q s ->
  total_waiting s = total_response s + wait_of (temp s)
  /\ busy_below n s.
Proof.
  intros p n t q s [H | [H | H]].
  - revert s H. apply FCFS_pass_rule.
    + intros q0 _. apply start_response.
    + intros s s' [J _] Hlt Hb. eapply pass_response; eassumption.
  - revert s H. apply SJF_state_rule.
    + intros q0 _. apply start_response.
    + intros s s' [J _] Hlt Hb. eapply SJF_body_response; eassumption.
  - revert s H. apply (@RR_pass_rule _ p n t q).
    + intros q0 _. apply start_response.
    + intros s s' [J _] Hlt Hb. eapply pass_response; eassumption.
Qed.

(** X5.  In every engine the response total is the waiting total: a record adds
    its waiting time to [total_waiting] when it is dispatched and the same
    amount to [total_response] when it leaves the CPU.  So a call that
    returns reports equal totals, and with them equal averages of waiting
    and response, whatever the input. *)
Theorem response_total_is_waiting_total : forall fuel p n t q s,
  FCFS fuel p n = Some (inr s)
  \/ SJF fuel p n = Some (inr s)
  \/ RR fuel p n t q = Some (inr s) ->
  total_response s = total_waiting s /\ temp s = None.
Proof.
  intros fuel p n t q s H.
  assert (Hs : (FCFS_state p n s \/ SJF_state p n s \/ RR_state p n t q s)
               /\ n <= terminate s).
  { destruct H as [H | [H | H]].
    - apply FCFS_final_state in H. tauto.
    - apply SJF_final_state in H. tauto.
    - apply RR_final_state in H. tauto. }
  destruct Hs as [Hs Hn].
  destruct (engine_state_response Hs) as [J Hbusy].
  unfold busy_below in Hbusy.
  destruct (temp s) as [x |] eqn:Ht.
  - exfalso. assert (terminate s < n) by (apply Hbusy; discriminate). lia.
  - simpl in J. split; [lia | reflexivity].
Qed.

Lemma response_total_is_waiting_total_witness :
  exists s,
    SJF 16 scenario 3 = Some (inr s)
    /\ total_response s = 10
    /\ total_response s = total_waiting s /\ temp s = None.
Proof.
  eexists. split; [vm_compute; reflexivity |].
  split; [reflexivity |].
  apply (@response_total_is_waiting_total 16%nat scenario 3 0 0).
  right. left. vm_compute. reflexivity.
Defined.

(** ** Where the records are *)

Lemma nth_error_skipn : forall (p : list Process) i x,
  nth_error p i = Some x -> skipn i p = x :: skipn (S i) p.
Proof.
  intros p. induction p as [| y p IH]; intros i x H.
  - destruct i; discriminate.
  - destruct i as [| i]; simpl in H.
    + injection H as ->. reflexivity.
    + simpl. rewrite (IH i x H). reflexivity.
Qed.

Lemma load_skipn : forall p count i q q',
  load p i count q = inr q' -> q' = q ++ firstn count (skipn i p).
Proof.
  intros p count.
  induction count as [| count IH]; intros i q q' H; simpl in H.
  - injection H as <-. simpl. rewrite app_nil_r. reflexivity.
  - destruct (nth_error p i) as [x |] eqn:Hn; [| discriminate].
    apply IH in H. rewrite H, (nth_error_skipn _ _ Hn).
    unfold Queue.enqueue. simpl. rewrite <- app_assoc. reflexivity.
Qed.

Lemma load_firstn : forall p count q,
  load p 0 count Queue.init_queue = inr q -> q = firstn count p.
Proof.
  intros p count q H. apply load_skipn in H. exact H.
Qed.

Lemma insert_permutation : forall cmp x l,
  Permutation (Queue.insert cmp x l) (x :: l).
Proof.
  intros cmp x l. induction l as [| y l IH]; simpl.
  - apply Permutation_refl.
  - destruct (cmp x y <=? 0).
    + apply Permutation_refl.
    + apply perm_trans with (y :: x :: l).
      * apply perm_skip. exact IH.
      * apply perm_swap.
Qed.

Lemma sort_permutation : forall cmp l, Permutation (Queue.sort l cmp) l.
Proof.
  intros cmp l. unfold Queue.sort. induction l as [| x l IH]; simpl.
  - apply Permutation_refl.
  - apply perm_trans with (x :: fold_right (Queue.insert cmp) [] l).
    + apply insert_permutation.
    + apply perm_skip. exact IH.
Qed.

Lemma arrive_everywhere : forall s s',
  arrive s = inr s' ->
  map static (everywhere s') = map static (everywhere s).
Proof.
  intros s s' H. apply arrive_cases in H.
  destruct H as [-> | [x [pre' [E [_ ->]]]]]; [reflexivity |].
  unfold everywhere. simpl. rewrite E, <- app_assoc. reflexivity.
Qed.

Lemma SJF_arrive_everywhere : forall s s',
  SJF_arrive s = inr s' ->
  Permutation (map static (everywhere s')) (map static (everywhere s)).
Proof.
  intros s s' H. apply SJF_arrive_cases in H.
  destruct H as [-> | [x [pre' [E [_ ->]]]]]; [apply Permutation_refl |].
  unfold everywhere. simpl. rewrite E.
  apply Permutation_map. apply Permutation_app_head. apply Permutation_app_head.
  replace (ready s ++ x :: pre') with ((ready s ++ [x]) ++ pre')
    by (rewrite <- app_assoc; reflexivity).
  apply Permutation_app_tail. apply sort_permutation.
Qed.

Lemma SJF_dispatch_everywhere : forall s s',
  SJF_dispatch s = inr s' ->
  map static (everywhere s') = map static (everywhere s).
Proof.
  intros s s' H. apply SJF_dispatch_cases in H.
  destruct H as [-> | [x [ready' [E [Hn ->]]]]]; [reflexivity |].
  unfold everywhere. simpl. rewrite E, Hn. simpl.
  rewrite !map_app. reflexivity.
Qed.

Lemma pass_everywhere : forall cap s s',
  pass cap s s' ->
  map static (everywhere s') = map static (everywhere s)
  /\ (terminate s = Z.of_nat (length (result s)) ->
      terminate s' = Z.of_nat (length (result s'))).
Proof.
  intros cap s s' [s1 [s2 [g [H1 [H2 H]]]]].
  assert (E2 : map static (everywhere s2) = map static (everywhere s1)
               /\ terminate s2 = terminate s1 /\ result s2 = result s1).
  { destruct H2 as [-> | [x [ready' [w [E [Hn ->]]]]]]; [auto |].
    unfold everywhere. simpl. rewrite E, Hn. simpl.
    rewrite !map_app. auto. }
  destruct E2 as [E2 [Ee2 Er2]].
  destruct (arrive_keeps _ H1) as [_ [_ [Ee [Er _]]]].
  apply progress_cases in H. simpl in H.
  rewrite <- (arrive_everywhere _ H1), <- E2.
  destruct H as [[Hn ->] | [x [Hx H]]].
  - split; [reflexivity | simpl; congruence].
  - unfold everywhere. destruct H as [[_ ->] | [_ ->]]; rewrite Hx; simpl.
    + split.
      * rewrite <- app_assoc. simpl. rewrite !map_app. simpl.
        rewrite !map_app. reflexivity.
      * intros Hc. rewrite length_app, Er2, Er. simpl. lia.
    + split; [rewrite !map_app; reflexivity | congruence].
Qed.

Lemma SJF_body_everywhere : forall s s',
  SJF_body s = inr s' ->
  Permutation (map static (everywhere s')) (map static (everywhere s))
  /\ (terminate s = Z.of_nat (length (result s)) ->
      terminate s' = Z.of_nat (length (result s'))).
Proof.
  unfold SJF_body. intros s s' H.
  apply SJF_body_steps in H. destruct H as [s1 [s2 [H1 [H2 [_ H]]]]].
  destruct (SJF_arrive_keeps _ _ H1) as [_ [_ [Ee [Er _]]]].
  assert (K2 : terminate s2 = terminate s1 /\ result s2 = result s1).
  { pose proof H2 as H2'. apply SJF_dispatch_cases in H2'.
    destruct H2' as [-> | [x [ready' [_ [_ ->]]]]]; simpl; auto. }
  destruct K2 as [Ee2 Er2].
  assert (E : map static (everywhere s') = map static (everywhere s2)
              /\ (terminate s2 = Z.of_nat (length (result s2)) ->
                  terminate s' = Z.of_nat (length (result s')))).
  { apply SJF_progress_cases in H. simpl in H.
    destruct H as [[Hn ->] | [x [Hx H]]].
    - split; [reflexivity | simpl; congruence].
    - unfold everywhere. destruct H as [[_ ->] | [_ ->]]; rewrite Hx; simpl.
      + split.
        * rewrite <- app_assoc. simpl. rewrite !map_app. simpl.
          rewrite !map_app. reflexivity.
        * intros Hc. rewrite length_app. simpl. lia.
      + split; [rewrite !map_app; reflexivity | congruence]. }
  destruct E as [E C]. split.
  - rewrite E, (SJF_dispatch_everywhere _ H2).
    apply SJF_arrive_everywhere. exact H1.
  - intros Hc. apply C. congruence.
Qed.

Lemma everywhere_start : forall q0, everywhere (start q0) = q0.
Proof.
  reflexivity.
Qed.

Lemma FCFS_state_everywhere : forall p n s,
  FCFS_state p n s ->
  map static (everywhere s)
  = map static (Queue.sort (firstn (Z.to_nat n) p) compare_for_arrival)
  /\ terminate s = Z.of_nat (length (result s)).
Proof.
  intros p n. apply FCFS_pass_rule.
  - intros q0 Hl. rewrite everywhere_start, (load_firstn _ _ Hl).
    split; reflexivity.
  - intros s s' [IH Hc] _ Hb.
    destruct (pass_everywhere Hb) as [E C].
    split; [rewrite E; exact IH | exact (C Hc)].
Qed.

Lemma RR_state_everywhere : forall p n t q s,
  RR_state p n t q s ->
  map static (everywhere s)
  = map static (Queue.sort (firstn (Z.to_nat n) p) compare_for_arrival)
  /\ terminate s = Z.of_nat (length (result s)).
Proof.
  intros p n t q. apply RR_pass_rule.
  - intros q0 Hl. rewrite everywhere_start, (load_firstn _ _ Hl).
    split; reflexivity.
  - intros s s' [IH Hc] _ Hb.
    destruct (pass_everywhere Hb) as [E C].
    split; [rewrite E; exact IH | exact (C Hc)].
Qed.

Lemma engine_state_everywhere : forall p n t q s,
  FCFS_state p n s \/ SJF_state p n s \/ RR_state p n t q s ->
  Permutation (map static (everywhere s))
              (map static (firstn (Z.to_nat n) p))
  /\ terminate s = Z.of_nat (length (result s)).
Proof.
  intros p n t q s [H | [H | H]].
  - destruct (FCFS_state_everywhere H) as [E C]. split; [| exact C].
    rewrite E. apply Permutation_map. apply sort_permutation.
  - revert s H. apply SJF_state_rule.
    + intros q0 Hl. rewrite everywhere_start, (load_firstn _ _ Hl).
      split; [apply Permutation_refl | reflexivity].
    + intros s s' [IH Hc] _ Hb.
      destruct (SJF_body_everywhere _ Hb) as [E C].
      split; [exact (perm_trans E IH) | exact (C Hc)].
  - destruct (RR_state_everywhere H) as [E C]. split; [| exact C].
    rewrite E. apply Permutation_map. apply sort_permutation.
Qed.
Lemma only_finished : forall (l : list (Z * Z * Z * Z)) n s,
  length (map static (everywhere s)) = length l ->
  (length l <= Z.to_nat n)%nat ->
  terminate s = Z.of_nat (length (result s)) ->
  n <= terminate s ->
  everywhere s = result s.
Proof.
  intros l n s El Hl Hc Hn.
  rewrite length_map in El. unfold everywhere in *.
  rewrite length_app in El.
  destruct (slot (temp s) ++ ready s ++ pre s) as [| y r] eqn:E.
  - apply app_nil_r.
  - exfalso. simpl in El. lia.
Qed.

(** X4.  [FCFS] serves in the order of its sorted pending queue.  At every tick
    the finished records, the running one, the ready queue and the pending
    queue, read in that order, are the first [n] records of the caller's
    array sorted by arrival, with identity, arrival, burst and priority
    untouched; so when the loop is over the records were finished in that
    order. *)
Theorem FCFS_serves_in_pending_order : forall p n s,
  FCFS_state p n s ->
  map static (everywhere s)
  = map static (Queue.sort (firstn (Z.to_nat n) p) compare_for_arrival)
  /\ (n <= terminate s ->
      map static (result s)
      = map static (Queue.sort (firstn (Z.to_nat n) p) compare_for_arrival)).
Proof.
  intros p n s Hs.
  destruct (FCFS_state_everywhere Hs) as [E C].
  split; [exact E |].
  intros Hn. rewrite <- E. f_equal. symmetry.
  apply only_finished
    with (l := map static (Queue.sort (firstn (Z.to_nat n) p)
                                      compare_for_arrival)) (n := n).
  - rewrite E. reflexivity.
  - rewrite length_map, length_sort, length_firstn. apply Nat.le_min_l.
  - exact C.
  - exact Hn.
Qed.

Lemma FCFS_serves_in_pending_order_witness :
  exists s,
    bind (FCFS_init scenario 3) (ticks FCFS_body 3 9) = inr s
    /\ map processID (everywhere s) = [0; 1; 2]
    /\ map static (everywhere s)
       = map static (Queue.sort (firstn (Z.to_nat 3) scenario)
                                compare_for_arrival).
Proof.
  eexists. split; [vm_compute; reflexivity |].
  split; [reflexivity |].
  apply (@FCFS_serves_in_pending_order scenario 3).
  eexists. split; [reflexivity |].
  apply ticks_reachable with 9%nat. vm_compute. reflexivity.
Defined.

(** X3.  No engine loses, duplicates or relabels a record.  At every tick the
    records finished, running, ready and pending are, up to order, the
    first [n] records of the caller's array with identity, arrival, burst
    and priority untouched, and [terminate] counts the finished ones; a call
    that returns has finished each of them exactly once. *)
Theorem engines_keep_every_record : forall fuel p n t q s,
  FCFS fuel p n = Some (inr s)
  \/ SJF fuel p n = Some (inr s)
  \/ RR fuel p n t q = Some (inr s) ->
  Permutation (map static (result s)) (map static (firstn (Z.to_nat n) p))
  /\ terminate s = Z.max 0 n
  /\ pre s = [] /\ ready s = [] /\ temp s = None.
Proof.
  intros fuel p n t q s H.
  assert (Hs : (FCFS_state p n s \/ SJF_state p n s \/ RR_state p n t q s)
               /\ n <= terminate s).
  { destruct H as [H | [H | H]].
    - apply FCFS_final_state in H. tauto.
    - apply SJF_final_state in H. tauto.
    - apply RR_final_state in H. tauto. }
  destruct Hs as [Hs Hn].
  destruct (engine_state_everywhere Hs) as [P C].
  assert (E : everywhere s = result s).
  { apply only_finished with (l := map static (firstn (Z.to_nat n) p)) (n := n).
    - apply Permutation_length. exact P.
    - rewrite length_map, length_firstn. apply Nat.le_min_l.
    - exact C.
    - exact Hn. }
  rewrite E in P. split; [exact P |].
  apply Permutation_length in P. rewrite !length_map, length_firstn in P.
  unfold everywhere in E.
  assert (E' : slot (temp s) ++ ready s ++ pre s = []).
  { apply app_inv_head with (l := result s). rewrite app_nil_r. exact E. }
  apply app_eq_nil in E'. destruct E' as [E1 E2].
  apply app_eq_nil in E2. destruct E2 as [E2 E3].
  split; [lia |].
  split; [exact E3 |].
  split; [exact E2 |].
  destruct (temp s); [discriminate | reflexivity].
Qed.

Lemma engines_keep_every_record_witness :
  exists s,
    RR 2 relay 2 2 1 = Some (inr s)
    /\ map processID (result s) = [0; 1]
    /\ Permutation (map static (result s))
                   (map static (firstn (Z.to_nat 2) relay)).
Proof.
  eexists. split; [vm_compute; reflexivity |].
  split; [reflexivity |].
  apply (@engines_keep_every_record 2%nat relay 2 2 1).
  right. right. vm_compute. reflexivity.
Defined.

(** ** Records in the ready queue have arrived *)

Lemma Forall_arrived_later : forall k l,
  Forall (fun x : Process => arrival x <= k) l ->
  Forall (fun x : Process => arrival x <= k + 1) l.
Proof.
  intros k l H. eapply Forall_impl; [| exact H]. simpl. intros x Hx. lia.
Qed.

Lemma arrive_arrived : forall s s',
  Forall (fun x => arrival x <= time s) (ready s) ->
  arrive s = inr s' ->
  Forall (fun x => arrival x <= time s') (ready s').
Proof.
  intros s s' Hr H. apply arrive_cases in H.
  destruct H as [-> | [x [pre' [_ [Hx ->]]]]]; [exact Hr |].
  simpl. apply Forall_enqueue; [exact Hr | lia].
Qed.

Lemma FCFS_body_waits : forall s s',
  Forall (fun x => arrival x <= time s) (ready s)
  /\ (forall x, temp s = Some x -> 0 <= waiting x)
  /\ Forall (fun x => 0 <= waiting x) (result s) ->
  FCFS_body s = inr s' ->
  Forall (fun x => arrival x <= time s') (ready s')
  /\ (forall x, temp s' = Some x -> 0 <= waiting x)
  /\ Forall (fun x => 0 <= waiting x) (result s').
Proof.
  unfold FCFS_body. intros s s' [Hr [Ht Hres]] H.
  apply FCFS_body_steps in H. destruct H as [s1 [s2 [H1 [H2 [_ H]]]]].
  pose proof (@arrive_arrived s s1 Hr H1) as Hr1.
  destruct (arrive_keeps _ H1) as [Et [_ [_ [Er _]]]].
  assert (I2 : Forall (fun x => arrival x <= time s2) (ready s2)
               /\ (forall x, temp s2 = Some x -> 0 <= waiting x)
               /\ result s2 = result s).
  { apply FCFS_dispatch_cases in H2.
    destruct H2 as [-> | [x [ready' [E [_ ->]]]]].
    - rewrite Et. auto.
    - rewrite E in Hr1. inversion Hr1; subst. simpl.
      repeat split; try assumption.
      intros y Hy. injection Hy as <-. simpl. lia. }
  destruct I2 as [Hr2 [Ht2 Er2]].
  apply progress_cases in H. simpl in H.
  destruct H as [[Hn ->] | [x [Hx H]]].
  - simpl in *. rewrite Er2.
    split; [apply Forall_arrived_later; exact Hr2 |]. split; assumption.
  - pose proof (Ht2 x Hx) as Hw.
    destruct H as [[_ ->] | [_ ->]]; simpl; rewrite ?Er2.
    + split; [apply Forall_arrived_later; exact Hr2 |].
      split; [intros y Hy; discriminate |].
      apply Forall_enqueue; [exact Hres | exact Hw].
    + split; [apply Forall_arrived_later; exact Hr2 |].
      split; [intros y Hy; injection Hy as <-; exact Hw | exact Hres].
Qed.

Lemma SJF_body_waits : forall s s',
  Forall (fun x => arrival x <= time s) (ready s)
  /\ (forall x, temp s = Some x -> 0 <= waiting x)
  /\ Forall (fun x => 0 <= waiting x /\ turnaround x = burst x + waiting x
                      /\ response x = waiting x) (result s) ->
  SJF_body s = inr s' ->
  Forall (fun x => arrival x <= time s') (ready s')
  /\ (forall x, temp s' = Some x -> 0 <= waiting x)
  /\ Forall (fun x => 0 <= waiting x /\ turnaround x = burst x + waiting x
                      /\ response x = waiting x) (result s').
Proof.
  unfold SJF_body. intros s s' [Hr [Ht Hres]] H.
  apply SJF_body_steps in H. destruct H as [s1 [s2 [H1 [H2 [_ H]]]]].
  destruct (SJF_arrive_keeps _ _ H1) as [Et [_ [_ [Er _]]]].
  assert (Hr1 : Forall (fun x => arrival x <= time s1) (ready s1)).
  { apply SJF_arrive_cases in H1.
    destruct H1 as [-> | [x [pre' [_ [Hx ->]]]]]; [exact Hr |].
    simpl. apply Forall_sort. apply Forall_enqueue; [exact Hr | lia]. }
  assert (I2 : Forall (fun x => arrival x <= time s2) (ready s2)
               /\ (forall x, temp s2 = Some x -> 0 <= waiting x)
               /\ result s2 = result s).
  { apply SJF_dispatch_cases in H2.
    destruct H2 as [-> | [x [ready' [E [_ ->]]]]].
    - rewrite Et. auto.
    - rewrite E in Hr1. inversion Hr1; subst. simpl.
      repeat split; try assumption.
      intros y Hy. injection Hy as <-. simpl. lia. }
  destruct I2 as [Hr2 [Ht2 Er2]].
  apply SJF_progress_cases in H. simpl in H.
  destruct H as [[Hn ->] | [x [Hx H]]].
  - simpl in *. rewrite Er2.
    split; [apply Forall_arrived_later; exact Hr2 |]. split; assumption.
  - pose proof (Ht2 x Hx) as Hw.
    destruct H as [[_ ->] | [_ ->]]; simpl; rewrite ?Er2.
    + split; [apply Forall_arrived_later; exact Hr2 |].
      split; [intros y Hy; discriminate |].
      apply Forall_enqueue; [exact Hres | simpl; auto].
    + split; [apply Forall_arrived_later; exact Hr2 |].
      split; [intros y Hy; injection Hy as <-; exact Hw | exact Hres].
Qed.

Lemma FCFS_state_waits : forall p n s,
  FCFS_state p n s ->
  Forall (fun x => arrival x <= time s) (ready s)
  /\ (forall x, temp s = Some x -> 0 <= waiting x)
  /\ Forall (fun x => 0 <= waiting x) (result s).
Proof.
  intros p n. apply FCFS_state_rule.
  - intros q0 _. simpl. repeat split; try constructor.
    intros x Hx. discriminate.
  - intros s s' IH _ Hb. eapply FCFS_body_waits; eassumption.
Qed.

Lemma SJF_state_waits : forall p n s,
  SJF_state p n s ->
  Forall (fun x => arrival x <= time s) (ready s)
  /\ (forall x, temp s = Some x -> 0 <= waiting x)
  /\ Forall (fun x => 0 <= waiting x /\ turnaround x = burst x + waiting x
                      /\ response x = waiting x) (result s).
Proof.
  intros p n. apply SJF_state_rule.
  - intros q0 _. simpl. repeat split; try constructor.
    intros x Hx. discriminate.
  - intros s s' IH _ Hb. eapply SJF_body_waits; eassumption.
Qed.

(** X6.  Under [FCFS] and [SJF] a record is dispatched no earlier than it
    arrived, whatever the input: the waiting time of every finished record
    is non-negative, and in [SJF] its turnaround is its burst plus its
    waiting time, hence at least its burst, and its response time is its
    waiting time. *)
Theorem nonpreemptive_waiting_is_nonnegative : forall p n s,
  FCFS_state p n s \/ SJF_state p n s ->
  Forall (fun x => 0 <= waiting x) (result s)
  /\ (SJF_state p n s ->
      Forall (fun x => turnaround x = burst x + waiting x
                       /\ response x = waiting x
                       /\ burst x <= turnaround x) (result s)).
Proof.
  intros p n s H. split.
  - destruct H as [H | H].
    + exact (proj2 (proj2 (FCFS_state_waits H))).
    + destruct (SJF_state_waits H) as [_ [_ G]].
      eapply Forall_impl; [| exact G]. simpl. intros x Hx. lia.
  - intros H'. destruct (SJF_state_waits H') as [_ [_ G]].
    eapply Forall_impl; [| exact G]. simpl. intros x Hx. lia.
Qed.

Lemma nonpreemptive_waiting_is_nonnegative_witness :
  exists s,
    SJF 16 scenario 3 = Some (inr s)
    /\ map waiting (result s) = [0; 4; 6]
    /\ Forall (fun x => 0 <= waiting x) (result s).
Proof.
  eexists. split; [vm_compute; reflexivity |].
  split; [reflexivity |].
  apply (@nonpreemptive_waiting_is_nonnegative scenario 3).
  right. eexists. split; [reflexivity |].
  apply ticks_reachable with 16%nat. vm_compute. reflexivity.
Defined.

(** ** When a pass of FCFS or RR fails *)

Lemma arrive_ready_empty : forall s s',
  arrive s = inr s' ->
  (ready s' = []
   <-> ready s = []
       /\ match pre s with
          | [] => True
          | x :: _ => arrival x <> time s
          end).
Proof.
  intros s s' H. unfold arrive in H.
  destruct (pre s) as [| x pre'] eqn:E; simpl in H.
  - injection H as <-. tauto.
  - destruct (arrival x =? time s) eqn:Ha; simpl in H; injection H as <-.
    + apply Z.eqb_eq in Ha. simpl. split.
      * intros H0. destruct (ready s); discriminate.
      * intros [_ Hne]. contradiction.
    + apply Z.eqb_neq in Ha. tauto.
Qed.

Lemma FCFS_dispatch_fails : forall s e,
  FCFS_dispatch s = inl e ->
  (e = EmptyQueue /\ ready s = []) \/ (e = Overflow /\ ready s <> []).
Proof.
  unfold FCFS_dispatch, FCFS_dispatch_with. intros s e H.
  destruct (ready s) as [| x ready'] eqn:Er; simpl in H.
  - injection H as <-. left. auto.
  - right. split; [| discriminate].
    destruct ((arrival x <=? time s) && is_null (temp s)); [| discriminate].
    simpl in H. blame H; try exact (as_int_inl _ H). discriminate.
Qed.

(** X7.  A pass of [FCFS] ends in [EmptyQueue] exactly when the ready queue
    is empty and no record arrives at that tick: the dispatch test peeks the
    ready queue whether or not the CPU is free.  The other ways for a pass
    to fail are an [int] out of range and a store at a negative index. *)
Theorem FCFS_body_fails_iff : forall s,
  (FCFS_body s = inl EmptyQueue
   <-> ready s = []
       /\ match pre s with
          | [] => True
          | x :: _ => arrival x <> time s
          end)
  /\ (forall e, FCFS_body s = inl e ->
                e = EmptyQueue \/ e = Overflow \/ e = OutOfBounds).
Proof.
  intros s. unfold FCFS_body, FCFS_body_with.
  destruct (arrive s) as [e1 | s1] eqn:H1.
  { exfalso. exact (arrive_total _ H1). }
  pose proof (arrive_ready_empty _ H1) as Hiff. simpl.
  fold FCFS_dispatch.
  destruct (FCFS_dispatch s1) as [e2 | s2] eqn:H2; simpl.
  - destruct (FCFS_dispatch_fails _ H2) as [[-> Er] | [-> Er]].
    + split.
      * split; [intros _; apply Hiff; exact Er | reflexivity].
      * intros e H. injection H as <-. auto.
    + split.
      * split; [discriminate |].
        intros H. apply Hiff in H. contradiction.
      * intros e H. injection H as <-. auto.
  - assert (Er : ready s1 <> []).
    { unfold FCFS_dispatch, FCFS_dispatch_with in H2.
      destruct (ready s1); [discriminate | discriminate]. }
    assert (K : forall e,
               (s3 <- tick s2 ;; progress MAX s3) = inl e ->
               e = Overflow \/ e = OutOfBounds).
    { intros e H. blame H.
      - left. exact (tick_fails _ H).
      - exact (progress_fails _ _ H). }
    split.
    + split.
      * intros H. destruct (K _ H); discriminate.
      * intros H. apply Hiff in H. contradiction.
    + intros e H. destruct (K _ H); auto.
Qed.

Lemma FCFS_body_fails_iff_witness :
  exists s,
    bind (FCFS_init lone 1) (ticks FCFS_body 1 1) = inr s
    /\ FCFS_body s = inl EmptyQueue.
Proof.
  eexists. split; [vm_compute; reflexivity |].
  apply (proj1 (@FCFS_body_fails_iff _)).
  split; [reflexivity | exact I].
Defined.

(** After the dispatch test of [RR] has gone through, the CPU slot is
    taken: the front of the ready queue has arrived, so an idle slot is
    filled. *)
Lemma RR_dispatch_fills : forall s1 s2,
  Forall (fun x => arrival x <= time s1) (ready s1) ->
  RR_dispatch s1 = inr s2 ->
  exists y, temp s2 = Some y.
Proof.
  intros s1 s2 Hr H. unfold RR_dispatch in H.
  destruct (ready s1) as [| f ready1] eqn:Er; simpl in H; [discriminate |].
  assert (Hf : (arrival f <=? time s1) = true).
  { apply Z.leb_le. inversion Hr; assumption. }
  rewrite Hf in H. simpl in H.
  destruct (temp s1) as [x |] eqn:Ex; simpl in H.
  - injection H as <-. exists x. exact Ex.
  - apply RR_take_cases in H. destruct H as [x [r [_ ->]]].
    eexists. reflexivity.
Qed.

Lemma RR_take_never_empty : forall m x,
  ready m <> [] -> RR_take m = inl x -> x = Overflow.
Proof.
  intros m x Hne H. destruct (RR_take_fails _ H) as [-> | ->];
    [| reflexivity].
  exfalso. unfold RR_take in H.
  destruct (ready m) as [| y r]; [contradiction |].
  simpl in H. blame H.
  - apply as_int_inl in H. discriminate.
  - apply as_int_inl in H. discriminate.
  - discriminate.
Qed.

Lemma RR_body_failures : forall p n t q s,
  RR_state p n t q s ->
  (RR_body t q s = inl EmptyQueue
   <-> ready s = []
       /\ match pre s with
          | [] => True
          | x :: _ => arrival x <> time s
          end)
  /\ (forall e, RR_body t q s = inl e ->
                e = EmptyQueue \/ e = Overflow \/ e = OutOfBounds).
Proof.
  intros p n t q s Hs.
  pose proof (RR_state_arrived Hs) as Hr.
  unfold RR_body.
  destruct (arrive s) as [e1 | s1] eqn:H1.
  { exfalso. exact (arrive_total _ H1). }
  pose proof (arrive_ready_empty _ H1) as Hiff.
  pose proof (@arrive_arrived s s1 Hr H1) as Hr1.
  simpl.
  destruct (RR_dispatch s1) as [e2 | s2] eqn:H2; simpl.
  - assert (Er : (e2 = EmptyQueue /\ ready s1 = [])
                 \/ (e2 = Overflow /\ ready s1 <> [])).
    { unfold RR_dispatch in H2.
      destruct (ready s1) as [| f r1] eqn:Er; simpl in H2.
      - injection H2 as <-. left. auto.
      - right. split; [| discriminate].
        destruct ((arrival f <=? time s1) && is_null (temp s1));
          [| discriminate].
        apply RR_take_never_empty in H2; [exact H2 |].
        rewrite Er. discriminate. }
    destruct Er as [[-> Er] | [-> Er]].
    + split.
      * split; [intros _; apply Hiff; exact Er | reflexivity].
      * intros e H. injection H as <-. auto.
    + split.
      * split; [discriminate |].
        intros H. apply Hiff in H. contradiction.
      * intros e H. injection H as <-. auto.
  - destruct (@RR_dispatch_fills s1 s2 Hr1 H2) as [y Hy].
    assert (Er : ready s1 <> []).
    { unfold RR_dispatch in H2. destruct (ready s1); discriminate. }
    assert (K : forall e,
               (s3 <- RR_expire t s2 ;; s4 <- RR_chart t s3 ;;
                progress (Some 5) s4) = inl e ->
               e = Overflow \/ e = OutOfBounds).
    { intros e H.
      apply bind_inl in H. destruct H as [H | [s3 [H3 H]]].
      - unfold RR_expire in H. rewrite Hy in H.
        destruct (execute y =? t); [| discriminate].
        blame H; try (left; exact (as_int_inl _ H)).
        left. apply RR_take_never_empty in H; [exact H |].
        simpl. unfold Queue.enqueue. destruct (ready s2); discriminate.
      - assert (Hz : exists z, temp s3 = Some z).
        { apply RR_expire_cases in H3.
          destruct H3 as [x [Hx [[_ ->] | [_ H3]]]];
            [exists x; exact Hx |].
          apply RR_take_cases in H3. destruct H3 as [z [r [_ ->]]].
          eexists. reflexivity. }
        destruct Hz as [z Hz].
        apply bind_inl in H. destruct H as [H | [s4 [_ H]]].
        + unfold RR_chart in H. rewrite Hz in H. blame H.
          * right. exact (store_inl _ _ _ _ H).
          * left. exact (as_int_inl _ H).
          * discriminate.
        + exact (progress_fails _ _ H). }
    split.
    + split.
      * intros H. destruct (K _ H); discriminate.
      * intros H. apply Hiff in H. contradiction.
    + intros e H. destruct (K _ H); auto.
Qed.

(** X8.  In a call of [RR] the two dereferences of [temp] that no [NULL] test
    protects (the quantum test and the chart entry) never meet a [NULL]:
    by then the dispatch test has either filled the CPU slot or ended the
    call.  A pass ends in [EmptyQueue] exactly when the ready queue is
    empty and no record arrives at that tick; its other failures are a
    store outside [gantt] or [result] and an [int] out of range. *)
Theorem RR_body_fails_iff : forall p n t q s,
  RR_state p n t q s ->
  (RR_body t q s = inl EmptyQueue
   <-> ready s = []
       /\ match pre s with
          | [] => True
          | x :: _ => arrival x <> time s
          end)
  /\ (forall e, RR_body t q s = inl e ->
                e = EmptyQueue \/ e = Overflow \/ e = OutOfBounds).
Proof.
  exact RR_body_failures.
Qed.

Lemma RR_body_fails_iff_witness :
  exists s,
    bind (RR_init lone 1) (ticks (RR_body 2 2) 1 1) = inr s
    /\ RR_body 2 2 s = inl EmptyQueue.
Proof.
  eexists. split; [vm_compute; reflexivity |].
  refine (proj2 (proj1 (@RR_body_fails_iff lone 1 2 2 _ _)) _).
  - eexists. split; [reflexivity |].
    apply ticks_reachable with 1%nat. vm_compute. reflexivity.
  - split; [reflexivity | exact I].
Defined.

(** ** A running record under FCFS and SJF *)

(** X9.  [FCFS] and [SJF] do not preempt.  A pass that starts with a record on
    the CPU takes one unit off its remaining time and leaves its identity,
    arrival, burst, priority and waiting time alone; the record stays on
    the CPU unless that was its last unit, and then it is appended to the
    results and the CPU is free. *)
Theorem nonpreemptive_pass : forall s s' x,
  FCFS_body s = inr s' \/ SJF_body s = inr s' ->
  temp s = Some x ->
  exists y,
    static y = static x
    /\ waiting y = waiting x
    /\ remain y = remain x - 1
    /\ ((remain x <> 1 /\ temp s' = Some y /\ result s' = result s)
        \/ (remain x = 1 /\ temp s' = None /\ result s' = result s ++ [y])).
Proof.
  intros s s' x [H | H] Hx.
  - unfold FCFS_body in H.
    apply FCFS_body_steps in H. destruct H as [s1 [s2 [H1 [H2 [_ H]]]]].
    destruct (arrive_keeps _ H1) as [Et [_ [_ [Er _]]]].
    apply FCFS_dispatch_cases in H2.
    destruct H2 as [-> | [z [ready' [_ [Hn _]]]]]; [| congruence].
    rewrite <- Et in Hx.
    apply progress_cases in H. simpl in H.
    destruct H as [[Hn _] | [x' [Hx' H]]]; [congruence |].
    rewrite Hx in Hx'. injection Hx' as <-.
    eexists. split; [| split; [| split]];
      [| | | destruct H as [[Hz ->] | [Hz ->]]; simpl; rewrite Er;
             [right | left]; repeat split; lia]; reflexivity.
  - unfold SJF_body in H.
    apply SJF_body_steps in H. destruct H as [s1 [s2 [H1 [H2 [_ H]]]]].
    destruct (SJF_arrive_keeps _ _ H1) as [Et [_ [_ [Er _]]]].
    apply SJF_dispatch_cases in H2.
    destruct H2 as [-> | [z [ready' [_ [Hn _]]]]]; [| congruence].
    rewrite <- Et in Hx.
    apply SJF_progress_cases in H. simpl in H.
    destruct H as [[Hn _] | [x' [Hx' H]]]; [congruence |].
    rewrite Hx in Hx'. injection Hx' as <-.
    destruct H as [[Hz ->] | [Hz ->]]; simpl; rewrite Er.
    + eexists. split; [| split; [| split]];
        [| | | right; repeat split; lia]; reflexivity.
    + eexists. split; [| split; [| split]];
        [| | | left; repeat split; lia]; reflexivity.
Qed.

Lemma nonpreemptive_pass_witness :
  exists s',
    FCFS_body at_quantum = inr s'
    /\ exists y,
         static y = static (mkProcess 0 0 3 2 0 0 0 1 0 0)
         /\ waiting y = 0
         /\ remain y = 2 - 1
         /\ ((2 <> 1 /\ temp s' = Some y /\ result s' = result at_quantum)
             \/ (2 = 1 /\ temp s' = None
                 /\ result s' = result at_quantum ++ [y])).
Proof.
  eexists. split; [vm_compute; reflexivity |].
  apply (@nonpreemptive_pass at_quantum _ (mkProcess 0 0 3 2 0 0 0 1 0 0)).
  - left. vm_compute. reflexivity.
  - reflexivity.
Defined.

(** ** The quantum test and the chart of RR *)

Lemma progress_keeps : forall cap s s',
  progress cap s = inr s' ->
  pre s' = pre s /\ ready s' = ready s /\ time s' = time s
  /\ gantt s' = gantt s.
Proof.
  intros cap s s' H. apply progress_cases in H.
  destruct H as [[_ ->] | [x [_ H]]]; [auto |].
  destruct H as [[_ ->] | [_ ->]]; auto.
Qed.

Lemma SJF_progress_keeps : forall s s',
  SJF_progress s = inr s' ->
  pre s' = pre s /\ ready s' = ready s /\ time s' = time s
  /\ gantt s' = gantt s.
Proof.
  intros s s' H. apply SJF_progress_cases in H.
  destruct H as [[_ ->] | [x [_ H]]]; [auto |].
  destruct H as [[_ ->] | [_ ->]]; auto.
Qed.

Lemma takes_keeps : forall s1 s2,
  takes s1 s2 ->
  pre s2 = pre s1 /\ time s2 = time s1 /\ terminate s2 = terminate s1
  /\ result s2 = result s1 /\ gantt s2 = gantt s1.
Proof.
  intros s1 s2 [-> | [x [r [w [_ [_ ->]]]]]]; simpl; auto.
Qed.

(** Induction over the states of a call of [RR], pass by pass, with the
    clock invariant at hand. *)
Lemma RR_state_rule : forall (I : State -> Prop) p n t q,
  (forall q0, load p 0 (Z.to_nat n) Queue.init_queue = inr q0 ->
              I (start (Queue.sort q0 compare_for_arrival))) ->
  (forall s s', I s -> clocked s -> terminate s < n ->
                RR_body t q s = inr s' -> I s') ->
  forall s, RR_state p n t q s -> I s.
Proof.
  intros I p n t q H0 Hstep s [s0 [Hi Hr]].
  unfold RR_init in Hi. apply bind_inr in Hi.
  destruct Hi as [q0 [Hl Hi]]. injection Hi as <-.
  assert (H : clocked s /\ I s); [| exact (proj2 H)].
  revert s Hr. apply reachable_invariant.
  - split; [| exact (H0 q0 Hl)].
    split; simpl; [lia | discriminate].
  - intros s s' [Hc IH] Hlt Hb. split.
    + exact (pass_clocked Hc (@RR_body_pass t q s s' Hc Hb)).
    + exact (Hstep s s' IH Hc Hlt Hb).
Qed.

(** The chart of [RR] has one entry for each tick, and the clock of a call
    never goes past [t]. *)
Lemma RR_state_chart : forall p n t q s,
  RR_state p n t q s ->
  Z.of_nat (length (gantt s)) = time s /\ time s <= Z.max 0 t.
Proof.
  intros p n t q. apply RR_state_rule.
  - intros q0 _. simpl. lia.
  - intros s s' [IH Hm] Hc _ Hb.
    destruct (@RR_body_quiet t q s s' Hc Hb)
      as [s1 [s2 [x [H1 [H2 [_ [_ [_ [E2 [Ht Hp]]]]]]]]]].
    destruct (arrive_keeps _ H1) as [_ [_ [_ [_ [_ [_ [_ Eg1]]]]]]].
    destruct (takes_keeps (RR_dispatch_takes _ H2)) as [_ [_ [_ [_ Eg2]]]].
    destruct (@progress_keeps _ _ _ Hp) as [_ [_ [-> ->]]]. simpl.
    rewrite length_app, Eg2, Eg1. simpl. lia.
Qed.

(** X10.  [RR] cannot preempt inside [gantt].  The chart has one entry for
    each tick and room for [t] of them, and a record has run for no longer
    than the clock has; so when the quantum test [execute == t] of a pass
    holds, the clock is at [t] or beyond and the pass does not go through:
    it ends in a store outside [gantt], unless an [int] has left its range
    before. *)
Theorem RR_quantum_test_overruns_gantt : forall p n t q s s1 s2 x,
  RR_state p n t q s ->
  arrive s = inr s1 ->
  RR_dispatch s1 = inr s2 ->
  temp s2 = Some x ->
  execute x = t ->
  t <= time s
  /\ Z.of_nat (length (gantt s)) = time s
  /\ exists e,
       RR_body t q s = inl e /\ (e = OutOfBounds \/ e = Overflow).
Proof.
  intros p n t q s s1 s2 x Hs H1 H2 Hx He.
  pose proof (RR_state_clocked Hs) as Hc.
  assert (C2 : clocked s2 /\ time s2 = time s).
  { destruct (arrive_keeps _ H1) as [Et [Ec _]].
    assert (C1 : clocked s1) by (unfold clocked in *; rewrite Et, Ec; auto).
    destruct (takes_clocked C1 (RR_dispatch_takes _ H2)) as [C2 E2].
    split; [exact C2 | congruence]. }
  destruct C2 as [[_ C2] E2]. specialize (C2 x Hx).
  split; [lia |].
  split; [exact (proj1 (RR_state_chart Hs)) |].
  destruct (RR_body t q s) as [e | s'] eqn:Hb.
  - exists e. split; [reflexivity |].
    destruct (proj2 (RR_body_failures Hs) e Hb) as [-> | [-> | ->]]; auto.
    exfalso. apply (proj1 (RR_body_failures Hs)) in Hb.
    destruct Hb as [Hb1 Hb2].
    assert (Er1 : ready s1 = [])
      by (apply (arrive_ready_empty _ H1); split; assumption).
    unfold RR_dispatch in H2. rewrite Er1 in H2. discriminate.
  - exfalso.
    destruct (@RR_body_quiet t q s s' Hc Hb)
      as [a [b [y [Ha [Hb' [_ [Hy [Hne _]]]]]]]].
    rewrite H1 in Ha. injection Ha as <-.
    rewrite H2 in Hb'. injection Hb' as <-.
    rewrite Hx in Hy. injection Hy as <-. contradiction.
Qed.

Lemma RR_quantum_test_overruns_gantt_witness :
  exists s s1 x,
    bind (RR_init pair 2) (ticks (RR_body 1 1) 2 1) = inr s
    /\ arrive s = inr s1
    /\ RR_dispatch s1 = inr s1
    /\ temp s1 = Some x
    /\ execute x = 1
    /\ RR_body 1 1 s = inl OutOfBounds
    /\ 1 <= time s
    /\ Z.of_nat (length (gantt s)) = time s
    /\ exists e,
         RR_body 1 1 s = inl e /\ (e = OutOfBounds \/ e = Overflow).
Proof.
  do 3 eexists. split; [vm_compute; reflexivity |].
  split; [vm_compute; reflexivity |].
  split; [vm_compute; reflexivity |].
  split; [reflexivity |].
  split; [reflexivity |].
  split; [vm_compute; reflexivity |].
  eapply (@RR_quantum_test_overruns_gantt pair 2 1 1).
  - eexists. split; [reflexivity |].
    apply ticks_reachable with 1%nat. vm_compute. reflexivity.
  - vm_compute. reflexivity.
  - vm_compute. reflexivity.
  - reflexivity.
  - reflexivity.
Defined.

(** [RR] with [t = 1], as a quantum, on P0(arrival 0, burst 3) and
    P1(arrival 1, burst 2): the second pass stores [gantt[1]] in a chart of
    one record. *)
Lemma RR_pair_overruns_gantt : forall fuel,
  RR (2 + fuel) pair 2 1 1 = Some (inl OutOfBounds).
Proof.
  intros fuel. reflexivity.
Qed.

(** ** Turnaround and completion time *)

Lemma snoc_inv : forall (l : list Process) y z,
  l ++ [y] = l ++ [z] -> y = z.
Proof.
  intros l y z H. apply app_inv_head in H. injection H as ->. reflexivity.
Qed.

Lemma snoc_neq : forall (l : list Process) y, l <> l ++ [y].
Proof.
  intros l y H. apply (f_equal (@length Process)) in H.
  rewrite length_app in H. simpl in H. lia.
Qed.

Lemma FCFS_body_clock : forall s s',
  (forall x, temp s = Some x -> time s = arrival x + waiting x + execute x) ->
  FCFS_body s = inr s' ->
  (forall x, temp s' = Some x ->
             time s' = arrival x + waiting x + execute x)
  /\ (forall y, result s' = result s ++ [y] ->
                time s' = arrival y + reported_turnaround y).
Proof.
  unfold FCFS_body. intros s s' Ht H.
  apply FCFS_body_steps in H. destruct H as [s1 [s2 [H1 [H2 [_ H]]]]].
  destruct (arrive_keeps _ H1) as [Et [Etime [_ [Er _]]]].
  assert (I2 : (forall x, temp s2 = Some x ->
                          time s2 = arrival x + waiting x + execute x)
               /\ result s2 = result s).
  { apply FCFS_dispatch_cases in H2.
    destruct H2 as [-> | [x [ready' [_ [_ ->]]]]]; simpl.
    - rewrite Et, Etime. auto.
    - split; [| exact Er].
      intros y Hy. injection Hy as <-. simpl. lia. }
  destruct I2 as [Ht2 Er2].
  apply progress_cases in H. simpl in H.
  destruct H as [[Hn ->] | [x [Hx H]]].
  - simpl in *. split.
    + intros x Hx. congruence.
    + intros y Hy. exfalso. rewrite Er2 in Hy. exact (@snoc_neq _ _ Hy).
  - pose proof (Ht2 x Hx) as Hc.
    destruct H as [[_ ->] | [_ ->]]; simpl; rewrite Er2.
    + split; [intros y Hy; discriminate |].
      intros y Hy. apply snoc_inv in Hy. subst y.
      unfold reported_turnaround. simpl. lia.
    + split; [intros y Hy; injection Hy as <-; simpl; lia |].
      intros y Hy. exfalso. exact (@snoc_neq _ _ Hy).
Qed.

Lemma FCFS_state_clock : forall p n s,
  FCFS_state p n s ->
  forall x, temp s = Some x -> time s = arrival x + waiting x + execute x.
Proof.
  intros p n.
  apply (@FCFS_state_rule
           (fun s => forall x, temp s = Some x ->
                               time s = arrival x + waiting x + execute x)
           p n).
  - intros q0 _ x Hx. discriminate.
  - intros s s' IH _ Hb.
    exact (proj1 (@FCFS_body_clock s s' IH Hb)).
Qed.

(** X11.  In [FCFS] the turnaround that is reported for a record, [execute +
    waiting], is the tick at which it finished minus its arrival time,
    whatever the input: while a record runs, the clock is its arrival plus
    its waiting time plus the ticks it has run. *)
Theorem FCFS_turnaround_is_completion_minus_arrival : forall p n s s' y,
  FCFS_state p n s ->
  FCFS_body s = inr s' ->
  result s' = result s ++ [y] ->
  reported_turnaround y = time s' - arrival y.
Proof.
  intros p n s s' y Hs Hb Hy.
  pose proof (@FCFS_body_clock s s' (FCFS_state_clock Hs) Hb) as [_ H].
  specialize (H y Hy). lia.
Qed.

Lemma SJF_body_clock : forall s s',
  queues_whole s ->
  (forall x, temp s = Some x ->
             time s = arrival x + waiting x + (burst x - remain x)) ->
  SJF_body s = inr s' ->
  (forall x, temp s' = Some x ->
             time s' = arrival x + waiting x + (burst x - remain x))
  /\ (forall y, result s' = result s ++ [y] ->
                time s' = arrival y + turnaround y).
Proof.
  intros s s' Hq Ht H.
  unfold SJF_body in H.
  apply SJF_body_steps in H. destruct H as [s1 [s2 [H1 [H2 [_ H]]]]].
  destruct (SJF_arrive_keeps _ _ H1) as [Et [Etime [_ [Er _]]]].
  assert (Hr1 : Forall whole (ready s1)).
  { destruct Hq as [Hp Hr]. apply SJF_arrive_cases in H1.
    destruct H1 as [-> | [x [pre' [E [_ ->]]]]]; [exact Hr |].
    simpl. apply Forall_sort. apply Forall_enqueue; [exact Hr |].
    rewrite E in Hp. inversion Hp; assumption. }
  assert (I2 : (forall x, temp s2 = Some x ->
                          time s2
                          = arrival x + waiting x + (burst x - remain x))
               /\ result s2 = result s).
  { apply SJF_dispatch_cases in H2.
    destruct H2 as [-> | [x [ready' [E [_ ->]]]]]; simpl.
    - rewrite Et, Etime. auto.
    - split; [| exact Er].
      rewrite E in Hr1. inversion Hr1; subst.
      intros y Hy. injection Hy as <-. simpl.
      match goal with W : whole x |- _ => unfold whole in W; lia end. }
  destruct I2 as [Ht2 Er2].
  apply SJF_progress_cases in H. simpl in H.
  destruct H as [[Hn ->] | [x [Hx H]]].
  - simpl in *. split.
    + intros x Hx. congruence.
    + intros y Hy. exfalso. rewrite Er2 in Hy. exact (@snoc_neq _ _ Hy).
  - pose proof (Ht2 x Hx) as Hc.
    destruct H as [[Hz ->] | [_ ->]]; simpl; rewrite Er2.
    + split; [intros y Hy; discriminate |].
      intros y Hy. apply snoc_inv in Hy. subst y. simpl. lia.
    + split; [intros y Hy; injection Hy as <-; simpl; lia |].
      intros y Hy. exfalso. exact (@snoc_neq _ _ Hy).
Qed.

Lemma SJF_state_clock : forall p n s,
  Forall whole p ->
  SJF_state p n s ->
  queues_whole s
  /\ forall x, temp s = Some x ->
               time s = arrival x + waiting x + (burst x - remain x).
Proof.
  intros p n s Hp. revert s.
  apply (@SJF_state_rule
           (fun s => queues_whole s
                     /\ forall x, temp s = Some x ->
                                  time s = arrival x + waiting x
                                           + (burst x - remain x))
           p n).
  - intros q0 Hl. split.
    + split; simpl; [| constructor].
      eapply load_Forall; [exact Hp | apply Forall_nil | exact Hl].
    + intros x Hx. discriminate.
  - intros s s' [Hq IH] _ Hb. split.
    + eapply SJF_body_queues_whole; eassumption.
    + exact (proj1 (@SJF_body_clock s s' Hq IH Hb)).
Qed.

(** X12.  In [SJF], on records that start whole, the turnaround written into a
    finished record, [burst + waiting], is the tick at which it finished
    minus its arrival time. *)
Theorem SJF_turnaround_is_completion_minus_arrival : forall p n s s' y,
  Forall whole p ->
  SJF_state p n s ->
  SJF_body s = inr s' ->
  result s' = result s ++ [y] ->
  turnaround y = time s' - arrival y.
Proof.
  intros p n s s' y Hp Hs Hb Hy.
  destruct (SJF_state_clock Hp Hs) as [Hq Ht].
  pose proof (@SJF_body_clock s s' Hq Ht Hb) as [_ H].
  specialize (H y Hy). lia.
Qed.
Lemma FCFS_turnaround_is_completion_minus_arrival_witness :
  exists s s' y,
    bind (FCFS_init scenario 3) (ticks FCFS_body 3 7) = inr s
    /\ FCFS_body s = inr s'
    /\ result s' = result s ++ [y]
    /\ processID y = 1 /\ time s' = 8
    /\ reported_turnaround y = time s' - arrival y.
Proof.
  do 3 eexists. split; [vm_compute; reflexivity |].
  split; [vm_compute; reflexivity |].
  split; [reflexivity |].
  split; [reflexivity |].
  split; [reflexivity |].
  eapply (@FCFS_turnaround_is_completion_minus_arrival scenario 3).
  - eexists. split; [reflexivity |].
    apply ticks_reachable with 7%nat. vm_compute. reflexivity.
  - vm_compute. reflexivity.
  - reflexivity.
Defined.

Lemma SJF_turnaround_is_completion_minus_arrival_witness :
  exists s s' y,
    bind (SJF_init scenario 3) (ticks SJF_body 3 15) = inr s
    /\ SJF_body s = inr s'
    /\ result s' = result s ++ [y]
    /\ processID y = 2 /\ time s' = 16
    /\ turnaround y = time s' - arrival y.
Proof.
  do 3 eexists. split; [vm_compute; reflexivity |].
  split; [vm_compute; reflexivity |].
  split; [reflexivity |].
  split; [reflexivity |].
  split; [reflexivity |].
  eapply (@SJF_turnaround_is_completion_minus_arrival scenario 3).
  - repeat constructor.
  - eexists. split; [reflexivity |].
    apply ticks_reachable with 15%nat. vm_compute. reflexivity.
  - vm_compute. reflexivity.
  - reflexivity.
Defined.

(** ** Calls that cannot return *)

Lemma FCFS_state_pass : forall p n s s',
  FCFS_state p n s -> terminate s < n -> FCFS_body s = inr s' ->
  FCFS_state p n s'.
Proof.
  intros p n s s' [s0 [Hi Hr]] Hlt Hb. exists s0.
  split; [exact Hi | exact (reach_pass Hr Hlt Hb)].
Qed.

Lemma SJF_state_pass : forall p n s s',
  SJF_state p n s -> terminate s < n -> SJF_body s = inr s' ->
  SJF_state p n s'.
Proof.
  intros p n s s' [s0 [Hi Hr]] Hlt Hb. exists s0.
  split; [exact Hi | exact (reach_pass Hr Hlt Hb)].
Qed.

Lemma RR_state_pass : forall p n t q s s',
  RR_state p n t q s -> terminate s < n -> RR_body t q s = inr s' ->
  RR_state p n t q s'.
Proof.
  intros p n t q s s' [s0 [Hi Hr]] Hlt Hb. exists s0.
  split; [exact Hi | exact (reach_pass Hr Hlt Hb)].
Qed.

(** ** Records that are never admitted *)

Lemma arrive_late : forall s s' x l,
  pre s = x :: l -> arrival x <> time s -> arrive s = inr s' -> s' = s.
Proof.
  intros s s' x l E Hne H. apply arrive_cases in H.
  destruct H as [-> | [y [pre' [E' [Hy _]]]]]; [reflexivity |].
  rewrite E in E'. injection E' as <- <-. contradiction.
Qed.

Lemma SJF_arrive_late : forall s s' x l,
  pre s = x :: l -> arrival x <> time s -> SJF_arrive s = inr s' -> s' = s.
Proof.
  intros s s' x l E Hne H. apply SJF_arrive_cases in H.
  destruct H as [-> | [y [pre' [E' [Hy _]]]]]; [reflexivity |].
  rewrite E in E'. injection E' as <- <-. contradiction.
Qed.

Lemma pass_late : forall cap s s' x l,
  pre s = x :: l -> arrival x < time s -> pass cap s s' ->
  pre s' = x :: l /\ time s' = time s + 1.
Proof.
  intros cap s s' x l E Hlt [s1 [s2 [g [H1 [H2 H]]]]].
  assert (s1 = s) by (eapply arrive_late; [exact E | lia | exact H1]).
  subst s1.
  destruct (takes_keeps H2) as [Ep [Et _]].
  destruct (@progress_keeps _ _ _ H) as [-> [_ [-> _]]]. simpl.
  split; [congruence | lia].
Qed.

Lemma SJF_body_late : forall s s' x l,
  pre s = x :: l -> arrival x < time s -> SJF_body s = inr s' ->
  pre s' = x :: l /\ time s' = time s + 1.
Proof.
  unfold SJF_body. intros s s' x l E Hlt H.
  apply SJF_body_steps in H. destruct H as [s1 [s2 [H1 [H2 [_ H]]]]].
  assert (s1 = s) by (eapply SJF_arrive_late; [exact E | lia | exact H1]).
  subst s1.
  destruct (@SJF_progress_keeps _ _ H) as [-> [_ [-> _]]]. simpl.
  apply SJF_dispatch_cases in H2.
  destruct H2 as [-> | [y [ready' [_ [_ ->]]]]]; simpl; split;
    try exact E; lia.
Qed.

Lemma pending_keeps_guard : forall p n t q s x l,
  FCFS_state p n s \/ SJF_state p n s \/ RR_state p n t q s ->
  pre s = x :: l ->
  terminate s < n.
Proof.
  intros p n t q s x l Hs E.
  destruct (engine_state_everywhere Hs) as [P C].
  apply Permutation_length in P.
  rewrite !length_map, length_firstn in P.
  unfold everywhere in P. rewrite !length_app, E in P. simpl in P. lia.
Qed.

(** X13.  A pending record whose arrival time is already past is never
    admitted, since the arrival block tests [arrival == time].  Once the
    head of the pending queue has an arrival time below the clock, then
    after any number of passes that go through it is still there, the loop
    guard still holds and every one of the passes has been run: the call
    has not returned.  This is what records with equal arrival times, or an
    array that [SJF] gets out of arrival order, lead to. *)
Theorem overdue_pending_record_is_never_admitted :
  forall p n t q k s s' x l,
    pre s = x :: l ->
    arrival x < time s ->
    (FCFS_state p n s /\ ticks FCFS_body n k s = inr s')
    \/ (SJF_state p n s /\ ticks SJF_body n k s = inr s')
    \/ (RR_state p n t q s /\ ticks (RR_body t q) n k s = inr s') ->
    pre s' = x :: l
    /\ time s' = time s + Z.of_nat k
    /\ terminate s' < n.
Proof.
  intros p n t q k.
  induction k as [| k IH]; intros s s' x l E Hlt H.
  - assert (Hs : FCFS_state p n s \/ SJF_state p n s \/ RR_state p n t q s)
      by tauto.
    pose proof (pending_keeps_guard Hs E) as G.
    assert (s' = s).
    { destruct H as [[_ H] | [[_ H] | [_ H]]]; simpl in H;
        injection H as <-; reflexivity. }
    subst s'. repeat split; [exact E | simpl; lia | exact G].
  - assert (Hs : FCFS_state p n s \/ SJF_state p n s \/ RR_state p n t q s)
      by tauto.
    pose proof (pending_keeps_guard Hs E) as G.
    pose proof G as G'. apply Z.ltb_lt in G'.
    assert (K : exists s1,
               pre s1 = x :: l /\ time s1 = time s + 1
               /\ ((FCFS_state p n s1 /\ ticks FCFS_body n k s1 = inr s')
                   \/ (SJF_state p n s1 /\ ticks SJF_body n k s1 = inr s')
                   \/ (RR_state p n t q s1
                       /\ ticks (RR_body t q) n k s1 = inr s'))).
    { destruct H as [[Hf H] | [[Hf H] | [Hf H]]]; simpl in H;
        rewrite G' in H; apply bind_inr in H; destruct H as [s1 [Hb H]];
        exists s1.
      - destruct (pass_late E Hlt (FCFS_body_pass _ _ Hb)) as [E1 T1].
        split; [exact E1 |]. split; [exact T1 |].
        left. split; [exact (FCFS_state_pass Hf G Hb) | exact H].
      - destruct (SJF_body_late _ E Hlt Hb) as [E1 T1].
        split; [exact E1 |]. split; [exact T1 |].
        right. left. split; [exact (SJF_state_pass Hf G Hb) | exact H].
      - destruct (pass_late E Hlt
                    (@RR_body_pass t q s s1 (RR_state_clocked Hf) Hb))
          as [E1 T1].
        split; [exact E1 |]. split; [exact T1 |].
        right. right. split; [exact (RR_state_pass Hf G Hb) | exact H]. }
    destruct K as [s1 [E1 [T1 H1]]].
    destruct (IH s1 s' x l E1 ltac:(lia) H1) as [R1 [R2 R3]].
    repeat split; [exact R1 | lia | exact R3].
Qed.

Lemma overdue_pending_record_is_never_admitted_witness :
  exists s s',
    bind (SJF_init late_first 2) (ticks SJF_body 2 3) = inr s
    /\ ticks SJF_body 2 100 s = inr s'
    /\ map processID (pre s) = [1]
    /\ pre s' = pre s
    /\ time s' = time s + Z.of_nat 100
    /\ terminate s' < 2.
Proof.
  do 2 eexists. split; [vm_compute; reflexivity |].
  split; [vm_compute; reflexivity |].
  split; [reflexivity |].
  apply (@overdue_pending_record_is_never_admitted late_first 2 0 0 100%nat
           _ _ (fresh 1 0 1) []).
  - reflexivity.
  - simpl. lia.
  - right. left. split.
    + eexists. split; [reflexivity |].
      apply ticks_reachable with 3%nat. vm_compute. reflexivity.
    + vm_compute. reflexivity.
Defined.

(** ** Records that ask for no CPU time *)

Lemma SJF_body_running : forall s s' x,
  SJF_body s = inr s' ->
  temp s = Some x ->
  remain x <> 1 ->
  terminate s' = terminate s
  /\ exists y, temp s' = Some y /\ remain y = remain x - 1.
Proof.
  unfold SJF_body. intros s s' x H Hx Hne.
  apply SJF_body_steps in H. destruct H as [s1 [s2 [H1 [H2 [_ H]]]]].
  destruct (SJF_arrive_keeps _ _ H1) as [Et [_ [Ee _]]].
  apply SJF_dispatch_cases in H2.
  destruct H2 as [-> | [z [ready' [_ [Hn _]]]]]; [| congruence].
  rewrite <- Et in Hx.
  apply SJF_progress_cases in H. simpl in H.
  destruct H as [[Hn _] | [x' [Hx' H]]]; [congruence |].
  rewrite Hx in Hx'. injection Hx' as <-.
  destruct H as [[Hz _] | [_ ->]]; [lia |]. simpl.
  split; [exact Ee |]. eexists. split; reflexivity.
Qed.

(** X14.  No engine checks that a burst is positive.  Once [SJF] has
    dispatched a record whose remaining time is zero or negative, each pass
    that goes through takes the remaining time one further below zero, the
    test [remain == 0] does not hold, and after any number of such passes
    the record is still on the CPU and the loop guard still holds. *)
Theorem SJF_spins_on_nonpositive_remain : forall p n k s s' x,
  SJF_state p n s ->
  temp s = Some x ->
  remain x <= 0 ->
  ticks SJF_body n k s = inr s' ->
  terminate s' = terminate s
  /\ terminate s' < n
  /\ exists y, temp s' = Some y /\ remain y = remain x - Z.of_nat k.
Proof.
  intros p n k s s' x Hs Hx Hr H.
  assert (G : terminate s < n).
  { destruct (@engine_state_response p n 0 0 s) as [_ Hb]; [auto |].
    apply Hb. rewrite Hx. discriminate. }
  clear Hs. revert s x Hx Hr G H.
  induction k as [| k IH]; intros s x Hx Hr G H; simpl in H.
  - injection H as <-. split; [reflexivity |]. split; [exact G |].
    exists x. split; [exact Hx | simpl; lia].
  - pose proof G as G'. apply Z.ltb_lt in G'. rewrite G' in H.
    apply bind_inr in H. destruct H as [s1 [Hb H]].
    destruct (@SJF_body_running s s1 x Hb Hx) as [Ee [y [Hy Hry]]];
      [lia |].
    destruct (IH s1 y Hy ltac:(lia) ltac:(lia) H) as [R1 [R2 [z [Hz Hrz]]]].
    split; [lia |]. split; [exact R2 |].
    exists z. split; [exact Hz | lia].
Qed.

Lemma SJF_spins_on_nonpositive_remain_witness :
  exists s x s',
    bind (SJF_init zero_burst 1) (ticks SJF_body 1 1) = inr s
    /\ temp s = Some x /\ remain x = -1
    /\ ticks SJF_body 1 50 s = inr s'
    /\ terminate s' = terminate s
    /\ terminate s' < 1
    /\ exists y, temp s' = Some y /\ remain y = remain x - Z.of_nat 50.
Proof.
  do 3 eexists. split; [vm_compute; reflexivity |].
  split; [reflexivity |].
  split; [reflexivity |].
  split; [vm_compute; reflexivity |].
  eapply (@SJF_spins_on_nonpositive_remain zero_burst 1 50%nat).
  - eexists. split; [reflexivity |].
    apply ticks_reachable with 1%nat. vm_compute. reflexivity.
  - reflexivity.
  - simpl. lia.
  - vm_compute. reflexivity.
Defined.

(** ** Calls of SJF that are sure to return *)

Lemma horizon_nonneg : forall k l, 0 <= horizon k l.
Proof.
  intros k l. induction l as [| x l IH]; simpl; lia.
Qed.

Lemma horizon_next : forall k l,
  horizon (k + 1) l = Z.max 0 (horizon k l - 1).
Proof.
  intros k l. induction l as [| x l IH]; simpl.
  - reflexivity.
  - rewrite IH. lia.
Qed.

Lemma sum_insert : forall (f : Process -> Z) cmp x l,
  sum (map f (Queue.insert cmp x l)) = f x + sum (map f l).
Proof.
  intros f cmp x l. induction l as [| y l IH]; simpl.
  - reflexivity.
  - destruct (cmp x y <=? 0); simpl; [reflexivity | rewrite IH; lia].
Qed.

Lemma sum_sort : forall (f : Process -> Z) cmp l,
  sum (map f (Queue.sort l cmp)) = sum (map f l).
Proof.
  intros f cmp l. unfold Queue.sort. induction l as [| y l IH]; simpl.
  - reflexivity.
  - rewrite sum_insert, IH. reflexivity.
Qed.

Lemma left_in_nonneg : forall l,
  Forall (fun x => 0 < remain x) l -> 0 <= left_in l.
Proof.
  intros l H. unfold left_in. induction H as [| x l Hx H IH]; simpl; lia.
Qed.

Lemma load_succeeds : forall p count i q,
  (i + count <= length p)%nat -> exists q', load p i count q = inr q'.
Proof.
  intros p count.
  induction count as [| count IH]; intros i q H; simpl.
  - exists q. reflexivity.
  - destruct (nth_error p i) as [x |] eqn:E.
    + apply IH. lia.
    + apply nth_error_None in E. lia.
Qed.
Lemma SJF_arrive_live : forall s s1,
  SJF_live s ->
  SJF_arrive s = inr s1 ->
  Forall (fun x => 0 < remain x) (pre s1)
  /\ Forall (fun x => 0 < remain x) (ready s1)
  /\ Forall (fun x => arrival x <= time s) (ready s1)
  /\ left_in (pre s1) + left_in (ready s1)
     = left_in (pre s) + left_in (ready s)
  /\ arrivals_from (time s + 1) (pre s1)
  /\ horizon (time s) (pre s1) <= horizon (time s) (pre s)
  /\ temp s1 = temp s /\ time s1 = time s /\ terminate s1 = terminate s
  /\ (ready s1 = [] ->
      pre s1 = pre s /\ ready s = []
      /\ forall x l, pre s1 = x :: l -> 2 <= horizon (time s) (pre s1)).
Proof.
  unfold SJF_live, SJF_arrive, SJF_arrive_with.
  intros s s1 [Hp [Hr [_ [Ha Hd]]]] H.
  destruct (pre s) as [| x pre'] eqn:E; simpl in H.
  - injection H as <-. rewrite E. simpl.
    repeat split; try assumption; try lia; try constructor.
    intros y l Hy. discriminate.
  - simpl in Ha. destruct Ha as [Hx Ha].
    inversion Hp as [| ? ? Hx0 Hp']; subst.
    destruct (arrival x =? time s) eqn:Hnow; simpl in H; injection H as <-.
    + apply Z.eqb_eq in Hnow. simpl. unfold Queue.timeout, Queue.enqueue.
      split; [exact Hp' |].
      split; [apply Forall_sort; apply Forall_enqueue; assumption |].
      split; [apply Forall_sort; apply Forall_enqueue; [assumption | lia] |].
      split.
      { unfold left_in. rewrite sum_sort, sum_snoc. simpl. lia. }
      split; [rewrite <- Hnow; exact Ha |].
      split; [lia |].
      split; [reflexivity |]. split; [reflexivity |]. split; [reflexivity |].
      intros H0. exfalso.
      assert (L : length (Queue.sort (ready s ++ [x]) compare_for_SJF)
                  = length (ready s ++ [x])) by apply length_sort.
      rewrite H0, length_app in L. simpl in L. lia.
    + apply Z.eqb_neq in Hnow. rewrite E. simpl.
      split; [exact Hp |].
      split; [exact Hr |].
      split; [exact Hd |].
      split; [reflexivity |].
      split; [split; [lia | exact Ha] |].
      split; [lia |].
      split; [reflexivity |]. split; [reflexivity |]. split; [reflexivity |].
      intros H0. split; [reflexivity |]. split; [exact H0 |].
      intros y l Hy. injection Hy as <- <-.
      pose proof (horizon_nonneg (time s) pre'). simpl. lia.
Qed.

Lemma SJF_dispatch_live : forall s1 s2,
  Forall (fun x => 0 < remain x) (ready s1) ->
  Forall (fun x => arrival x <= time s1) (ready s1) ->
  (forall x, temp s1 = Some x -> 0 < remain x) ->
  SJF_dispatch s1 = inr s2 ->
  Forall (fun x => 0 < remain x) (ready s2)
  /\ Forall (fun x => arrival x <= time s1) (ready s2)
  /\ (forall x, temp s2 = Some x -> 0 < remain x)
  /\ left_in (ready s2) + left_on (temp s2)
     = left_in (ready s1) + left_on (temp s1)
  /\ pre s2 = pre s1 /\ time s2 = time s1 /\ terminate s2 = terminate s1
  /\ (temp s2 = None -> ready s1 = [] /\ ready s2 = [] /\ temp s1 = None).
Proof.
  unfold SJF_dispatch. intros s1 s2 Hr Hd Ht H.
  destruct (ready s1) as [| x r] eqn:E; simpl in H.
  - injection H as <-. rewrite E. repeat split; try assumption.
  - inversion Hr; subst. inversion Hd; subst.
    replace (arrival x <=? time s1) with true in H
      by (symmetry; apply Z.leb_le; assumption).
    destruct (temp s1) as [y |] eqn:Ey; simpl in H.
    + injection H as <-.
      rewrite E, Ey. repeat split; try assumption. all: try discriminate.
    + apply bind_inr in H. destruct H as [w [Hw H]].
      apply as_int_inr in Hw. destruct Hw as [-> _].
      injection H as <-.
      simpl. split; [assumption |]. split; [assumption |].
      split; [intros y Hy; injection Hy as <-; simpl; assumption |].
      split; [unfold left_in; simpl; lia |].
      split; [reflexivity |]. split; [reflexivity |]. split; [reflexivity |].
      intros Hn. discriminate.
Qed.

Lemma SJF_body_live : forall s s',
  SJF_live s ->
  slot (temp s) ++ ready s ++ pre s <> [] ->
  SJF_body s = inr s' ->
  SJF_live s'
  /\ 0 <= budget s' <= budget s - 1
  /\ time s' = time s + 1.
Proof.
  intros s s' Hlive Hwork H.
  pose proof Hlive as [_ [_ [Ht0 _]]].
  unfold SJF_body in H.
  apply SJF_body_steps in H. destruct H as [s1 [s2 [H1 [H2 [_ H]]]]].
  destruct (@SJF_arrive_live s s1 Hlive H1)
    as [Hp1 [Hr1 [Hd1 [L1 [A1 [Z1 [Et1 [Etime1 [Ee1 Idle1]]]]]]]]].
  assert (Ht1 : forall x, temp s1 = Some x -> 0 < remain x)
    by (rewrite Et1; exact Ht0).
  rewrite <- Etime1 in Hd1.
  destruct (@SJF_dispatch_live s1 s2 Hr1 Hd1 Ht1 H2)
    as [Hr2 [Hd2 [Ht2 [L2 [Ep2 [Etime2 [Ee2 Idle2]]]]]]].
  assert (Hh : 0 <= horizon (time s + 1) (pre s1) <= horizon (time s) (pre s))
    by (rewrite horizon_next; pose proof (horizon_nonneg (time s) (pre s1)); lia).
  assert (N1 : 0 <= left_in (pre s1)) by (apply left_in_nonneg; exact Hp1).
  assert (N2 : 0 <= left_in (ready s2)) by (apply left_in_nonneg; exact Hr2).
  assert (Hd3 : Forall (fun x => arrival x <= time s + 1) (ready s2)).
  { eapply Forall_impl; [| exact Hd2]. simpl. intros x Hx. lia. }
  apply SJF_progress_cases in H. simpl in H.
  destruct H as [[Hn ->] | [x [Hx H]]].
  - destruct (Idle2 Hn) as [Er1 [Er2 En1]].
    destruct (Idle1 Er1) as [Epre [Ers Far]].
    assert (Hnone : temp s = None) by congruence.
    assert (Hpre : exists y l, pre s1 = y :: l).
    { rewrite Epre. destruct (pre s) as [| y l] eqn:E1; [| eauto].
      exfalso. apply Hwork. rewrite Hnone, Ers. reflexivity. }
    destruct Hpre as [y [l Ey]].
    pose proof (Far y l Ey) as Hz.
    unfold SJF_live, budget. simpl.
    rewrite Ep2, Etime2, Etime1, Hn, Er2, Hnone, Ers, horizon_next.
    rewrite <- Epre. change (left_in []) with 0.
    change (left_on None) with 0.
    split; [| lia].
    split; [exact Hp1 |]. split; [constructor |].
    split; [intros z Hz'; discriminate |].
    split; [exact A1 | constructor].
  - pose proof (Ht2 x Hx) as Px.
    rewrite Hx, Et1 in L2. simpl in L2.
    destruct H as [[Hz ->] | [Hz ->]]; unfold SJF_live, budget; simpl;
      rewrite Ep2, Etime2, Etime1.
    + split; [| lia].
      repeat split; try assumption. intros z Hz'. discriminate.
    + split; [| lia].
      repeat split; try assumption.
      intros z Hz'. injection Hz' as <-. simpl. lia.
Qed.
Lemma SJF_state_loaded : forall p n s,
  SJF_state p n s -> length (firstn (Z.to_nat n) p) = Z.to_nat n.
Proof.
  intros p n s [s0 [Hi _]]. unfold SJF_init in Hi.
  apply bind_inr in Hi. destruct Hi as [q0 [Hl _]].
  rewrite <- (load_firstn _ _ Hl). rewrite (length_load _ _ _ _ Hl).
  reflexivity.
Qed.

Lemma guard_has_work : forall p n s,
  SJF_state p n s ->
  terminate s < n ->
  slot (temp s) ++ ready s ++ pre s <> [].
Proof.
  intros p n s Hs Hlt Hnil.
  destruct (@engine_state_everywhere p n 0 0 s) as [P C]; [auto |].
  apply Permutation_length in P.
  rewrite !length_map, (SJF_state_loaded Hs) in P.
  unfold everywhere in P. rewrite Hnil, app_nil_r in P. lia.
Qed.

Lemma budget_bounds : forall s,
  SJF_live s ->
  0 <= budget s
  /\ (slot (temp s) ++ ready s ++ pre s <> [] -> 1 <= budget s).
Proof.
  unfold SJF_live, budget. intros s [Hp [Hr [Ht _]]].
  pose proof (left_in_nonneg Hp) as N1.
  pose proof (left_in_nonneg Hr) as N2.
  pose proof (horizon_nonneg (time s) (pre s)) as N3.
  assert (N4 : 0 <= left_on (temp s)).
  { destruct (temp s) as [x |]; simpl; [| lia].
    assert (0 < remain x) by (apply Ht; reflexivity). lia. }
  split; [lia |].
  intros Hwork.
  destruct (temp s) as [x |] eqn:Ex.
  - assert (0 < remain x) by (apply Ht; reflexivity). simpl. lia.
  - destruct (ready s) as [| y r] eqn:Er.
    + destruct (pre s) as [| z l] eqn:Ep; [exfalso; apply Hwork; reflexivity |].
      inversion Hp; subst.
      assert (0 <= left_in l) by (apply left_in_nonneg; assumption).
      unfold left_in in *. simpl in *. lia.
    + inversion Hr; subst.
      assert (0 <= left_in r) by (apply left_in_nonneg; assumption).
      unfold left_in in *. simpl in *. lia.
Qed.

Lemma SJF_arrive_bounded : forall s s1,
  SJF_bounded s -> SJF_arrive s = inr s1 -> SJF_bounded s1.
Proof.
  intros s s1 [Ht [Hte [Hp [Hr Hx]]]] H. apply SJF_arrive_cases in H.
  destruct H as [-> | [x [pre' [E [Ha ->]]]]].
  - exact (conj Ht (conj Hte (conj Hp (conj Hr Hx)))).
  - rewrite E in Hp. inversion Hp; subst.
    unfold SJF_bounded. simpl.
    split; [exact Ht |]. split; [exact Hte |]. split; [assumption |].
    split; [| exact Hx].
    apply Forall_sort. apply Forall_enqueue; [exact Hr |].
    split; [assumption | lia].
Qed.

Lemma SJF_dispatch_bounded : forall s1 s2,
  SJF_bounded s1 -> SJF_dispatch s1 = inr s2 ->
  SJF_bounded s2 /\ time s2 = time s1 /\ terminate s2 = terminate s1.
Proof.
  intros s1 s2 [Ht [Hte [Hp [Hr Hx]]]] H. apply SJF_dispatch_cases in H.
  destruct H as [-> | [x [ready' [E [Hn ->]]]]].
  - split; [exact (conj Ht (conj Hte (conj Hp (conj Hr Hx)))) | auto].
  - rewrite E in Hr. inversion Hr as [| x0 l0 Hx0 Hl0]. subst x0 l0.
    destruct Hx0 as [[Ha [Hb Hw]] Hd]. unfold whole in Hw.
    unfold SJF_bounded. simpl.
    split; [| auto].
    split; [exact Ht |]. split; [exact Hte |]. split; [exact Hp |].
    split; [exact Hl0 |].
    intros y Hy. injection Hy as <-. simpl. lia.
Qed.

Lemma SJF_dispatch_succeeds : forall s1,
  SJF_bounded s1 -> time s1 <= INT_MAX ->
  exists s2, SJF_dispatch s1 = inr s2.
Proof.
  intros s1 [Ht [Hte [Hp [Hr Hx]]]] Hmax. unfold SJF_dispatch.
  destruct (ready s1) as [| x r] eqn:E; simpl.
  - eexists. reflexivity.
  - destruct ((arrival x <=? time s1) && is_null (temp s1)); simpl.
    + inversion Hr as [| x0 l0 Hx0 Hl0]. subst x0 l0.
      destruct Hx0 as [[Ha _] Hd].
      rewrite as_int_ok by (unfold INT_MIN; lia).
      eexists. reflexivity.
    + eexists. reflexivity.
Qed.

Lemma SJF_tail_bounded : forall s2 s',
  SJF_bounded s2 ->
  SJF_progress
    (mkState (pre s2) (ready s2) (temp s2) (time s2 + 1) (terminate s2)
             (result s2) (total_turnaround s2) (total_waiting s2)
             (total_response s2) (gantt s2)) = inr s' ->
  SJF_bounded s'.
Proof.
  intros s2 s' [Ht [Hte [Hp [Hr Hx]]]] H.
  assert (Hr' : Forall (fun x => sized x /\ arrival x <= time s2 + 1)
                       (ready s2)).
  { eapply Forall_impl; [| exact Hr]. simpl. intros z [Hz Hz']. split;
      [exact Hz | lia]. }
  apply SJF_progress_cases in H. simpl in H. unfold SJF_bounded.
  destruct H as [[Hn ->] | [x [Ex H]]].
  - simpl. rewrite Hn.
    split; [lia |]. split; [exact Hte |]. split; [exact Hp |].
    split; [exact Hr' | discriminate].
  - specialize (Hx x Ex).
    destruct H as [[Hz ->] | [Hz ->]]; simpl.
    + split; [lia |]. split; [lia |]. split; [exact Hp |].
      split; [exact Hr' | discriminate].
    + split; [lia |]. split; [exact Hte |]. split; [exact Hp |].
      split; [exact Hr' |].
      intros y Hy. injection Hy as <-. simpl. lia.
Qed.

Lemma SJF_tail_succeeds : forall s2,
  SJF_bounded s2 -> time s2 < INT_MAX -> terminate s2 < 5 ->
  exists s',
    (s3 <- tick s2 ;; SJF_progress s3) = inr s'.
Proof.
  intros s2 [Ht [Hte [Hp [Hr Hx]]]] Hmax Hcap.
  assert (Hmin : INT_MIN < 0) by (unfold INT_MIN; lia).
  assert (Hpos : 5 <= INT_MAX) by (unfold INT_MAX; lia).
  unfold tick. rewrite as_int_ok by lia. simpl.
  unfold SJF_progress. simpl.
  destruct (temp s2) as [x |] eqn:Ex; [| eexists; reflexivity].
  destruct (Hx x eq_refl) as [Hw [Hrem [Hb Hc]]].
  rewrite as_int_ok by lia. simpl.
  destruct (remain x - 1 =? 0) eqn:Hz.
  - apply Z.eqb_eq in Hz.
    rewrite as_int_ok by lia. simpl.
    unfold store. rewrite has_slot_ok by lia. simpl.
    rewrite as_int_ok by lia. simpl.
    eexists. reflexivity.
  - eexists. reflexivity.
Qed.

Lemma SJF_body_bounded : forall s s',
  SJF_bounded s -> SJF_body s = inr s' -> SJF_bounded s'.
Proof.
  intros s s' Hb H. unfold SJF_body in H.
  apply SJF_body_steps in H. destruct H as [s1 [s2 [H1 [H2 [_ H]]]]].
  pose proof (@SJF_arrive_bounded s s1 Hb H1) as B1.
  destruct (@SJF_dispatch_bounded s1 s2 B1 H2) as [B2 _].
  exact (@SJF_tail_bounded s2 s' B2 H).
Qed.

Lemma SJF_body_succeeds : forall s,
  SJF_bounded s -> time s < INT_MAX -> terminate s < 5 ->
  exists s', SJF_body s = inr s'.
Proof.
  intros s Hb Hmax Hcap. unfold SJF_body, SJF_body_with.
  destruct (SJF_arrive_with compare_for_SJF s) as [e | s1] eqn:H1.
  { exfalso. exact (SJF_arrive_total _ _ H1). }
  pose proof (@SJF_arrive_bounded s s1 Hb H1) as B1.
  destruct (SJF_arrive_keeps _ _ H1) as [_ [Et1 [Ee1 _]]].
  destruct (@SJF_dispatch_succeeds s1 B1) as [s2 H2]; [lia |].
  destruct (@SJF_dispatch_bounded s1 s2 B1 H2) as [B2 [Et2 Ee2]].
  simpl. rewrite H2. simpl.
  apply SJF_tail_succeeds; [exact B2 | lia | lia].
Qed.

Lemma SJF_runs_out : forall p n fuel,
  n <= 5 ->
  forall s,
  SJF_state p n s ->
  SJF_live s ->
  SJF_bounded s ->
  budget s <= Z.of_nat fuel ->
  time s + budget s <= INT_MAX ->
  exists s',
    while SJF_body n fuel s = Some (inr s')
    /\ time s' <= time s + budget s.
Proof.
  intros p n fuel Hn.
  induction fuel as [| fuel IH]; intros s Hs Hlive Hbd Hb Hmax.
  - destruct (budget_bounds Hlive) as [B0 B1]. simpl.
    destruct (terminate s <? n) eqn:G.
    + exfalso. apply Z.ltb_lt in G.
      pose proof (B1 (guard_has_work Hs G)). lia.
    + exists s. split; [reflexivity | lia].
  - destruct (budget_bounds Hlive) as [B0 B1]. simpl.
    destruct (terminate s <? n) eqn:G.
    + apply Z.ltb_lt in G.
      pose proof (guard_has_work Hs G) as Hwork.
      pose proof (B1 Hwork) as B2.
      destruct (@SJF_body_succeeds s Hbd) as [s1 Hbody]; [lia | lia |].
      rewrite Hbody.
      destruct (@SJF_body_live s s1 Hlive Hwork Hbody) as [L1 [B3 T1]].
      destruct (IH s1 (SJF_state_pass Hs G Hbody) L1
                   (@SJF_body_bounded s s1 Hbd Hbody))
        as [s' [W T]]; [lia | lia |].
      exists s'. split; [exact W | lia].
    + exists s. split; [reflexivity | lia].
Qed.

Lemma arrivals_from_nonneg : forall l k,
  0 <= k -> arrivals_from k l -> Forall (fun x => 0 <= arrival x) l.
Proof.
  induction l as [| x l IH]; intros k Hk H.
  - constructor.
  - simpl in H. destruct H as [Hx H].
    constructor; [lia |]. apply (IH (arrival x + 1)); [lia | exact H].
Qed.

Lemma left_in_bounds_each : forall l,
  Forall (fun x => 0 < remain x) l ->
  Forall (fun x => remain x <= left_in l) l.
Proof.
  intros l H. induction H as [| x l Hx H IH].
  - constructor.
  - pose proof (left_in_nonneg H) as N.
    unfold left_in in *. simpl. constructor; [lia |].
    eapply Forall_impl; [| exact IH]. simpl. intros y Hy. lia.
Qed.

(** X15.  [SJF] is sure to return when it is given at most five records
    that, taken in array order, have strictly increasing arrival times from
    0 on, start whole and each have work to do, and when the total work
    plus the ticks until the last record has arrived fits an [int]: within
    that many passes the loop is over, no [int] has left its range, no
    store has gone past [result_sjf], and the clock has stopped within the
    bound. *)
Theorem SJF_returns_on_staggered_arrivals : forall p n fuel,
  (Z.to_nat n <= length p)%nat ->
  n <= 5 ->
  arrivals_from 0 (firstn (Z.to_nat n) p) ->
  Forall (fun x => 0 < remain x /\ whole x) (firstn (Z.to_nat n) p) ->
  left_in (firstn (Z.to_nat n) p) + horizon 0 (firstn (Z.to_nat n) p)
  <= Z.of_nat fuel ->
  left_in (firstn (Z.to_nat n) p) + horizon 0 (firstn (Z.to_nat n) p)
  <= INT_MAX ->
  exists s,
    SJF fuel p n = Some (inr s)
    /\ time s
       <= left_in (firstn (Z.to_nat n) p)
          + horizon 0 (firstn (Z.to_nat n) p).
Proof.
  intros p n fuel Hlen Hn Harr Hpw Hfuel Hmax.
  destruct (@load_succeeds p (Z.to_nat n) 0%nat Queue.init_queue) as [q0 Hl];
    [simpl; exact Hlen |].
  pose proof (load_firstn _ _ Hl) as Eq. rewrite <- Eq in *.
  assert (Hpos : Forall (fun x => 0 < remain x) q0).
  { eapply Forall_impl; [| exact Hpw]. simpl. tauto. }
  assert (Hs : SJF_state p n (start q0)).
  { exists (start q0). split; [| constructor].
    unfold SJF_init. rewrite Hl. reflexivity. }
  assert (Hlive : SJF_live (start q0)).
  { unfold SJF_live. simpl. repeat split; try assumption; try constructor.
    intros x Hx. discriminate. }
  assert (Hb : budget (start q0) = left_in q0 + horizon 0 q0).
  { unfold budget. simpl. change (left_in Queue.init_queue) with 0. lia. }
  assert (Hbd : SJF_bounded (start q0)).
  { unfold SJF_bounded. simpl.
    split; [lia |]. split; [lia |].
    split; [| split; [constructor | intros x Hx; discriminate]].
    pose proof (arrivals_from_nonneg q0 (Z.le_refl 0) Harr) as Ha.
    pose proof (left_in_bounds_each Hpos) as Hle.
    pose proof (horizon_nonneg 0 q0) as Hh.
    clear - Ha Hle Hpw Hh Hmax.
    rewrite Forall_forall in *. intros x Hx.
    specialize (Ha x Hx). specialize (Hle x Hx).
    destruct (Hpw x Hx) as [Hr Hw]. unfold sized, whole in *.
    repeat split; try assumption; lia. }
  destruct (@SJF_runs_out p n fuel Hn (start q0) Hs Hlive Hbd) as [s [W T]];
    [lia | simpl; lia |].
  exists s. split.
  - unfold SJF, SJF_init. rewrite Hl. exact W.
  - simpl in T. lia.
Qed.

Lemma SJF_returns_on_staggered_arrivals_witness :
  exists s,
    SJF 19 scenario 3 = Some (inr s)
    /\ time s
       <= left_in (firstn (Z.to_nat 3) scenario)
          + horizon 0 (firstn (Z.to_nat 3) scenario).
Proof.
  apply (@SJF_returns_on_staggered_arrivals scenario 3 19%nat).
  - simpl. lia.
  - lia.
  - simpl. lia.
  - repeat constructor; simpl; lia.
  - vm_compute. discriminate.
  - vm_compute. discriminate.
Defined.

(** ** The failures of SJF *)

Lemma while_fails_at : forall body n fuel s e,
  while body n fuel s = Some (inl e) ->
  exists s1, reachable body n s s1 /\ terminate s1 < n /\ body s1 = inl e.
Proof.
  intros body n fuel.
  induction fuel as [| fuel IH]; intros s e H; simpl in H.
  - destruct (terminate s <? n); discriminate.
  - destruct (terminate s <? n) eqn:G; [| discriminate].
    apply Z.ltb_lt in G.
    destruct (body s) as [e' | s'] eqn:Hb.
    + injection H as <-. exists s. split; [constructor | auto].
    + destruct (IH _ _ H) as [s1 [Hr [G1 H1]]].
      exists s1. split; [| auto].
      apply reachable_trans with s'; [| exact Hr].
      apply reach_pass with s; [constructor | exact G | exact Hb].
Qed.

Lemma SJF_dispatch_keeps : forall s s',
  SJF_dispatch s = inr s' ->
  time s' = time s /\ terminate s' = terminate s /\ result s' = result s.
Proof.
  intros s s' H. apply SJF_dispatch_cases in H.
  destruct H as [-> | [x [ready' [_ [_ ->]]]]]; simpl; repeat split.
Qed.

(** A pass of [SJF] stores outside [result_sjf] only when five records
    have been finished already. *)
Lemma SJF_body_out_of_bounds : forall s,
  SJF_body s = inl OutOfBounds -> ~ 0 <= terminate s < 5.
Proof.
  unfold SJF_body, SJF_body_with. intros s H Hb.
  apply bind_inl in H. destruct H as [H | [s1 [H1 H]]].
  { exact (SJF_arrive_total _ _ H). }
  apply bind_inl in H. destruct H as [H | [s2 [H2 H]]].
  { apply SJF_dispatch_fails in H. discriminate. }
  apply bind_inl in H. destruct H as [H | [s3 [H3 H]]].
  { apply tick_fails in H. discriminate. }
  destruct (SJF_arrive_keeps _ _ H1) as [_ [_ [E1 _]]].
  destruct (SJF_dispatch_keeps _ H2) as [_ [E2 _]].
  apply tick_cases in H3. destruct H3 as [_ ->].
  unfold SJF_progress in H. simpl in H.
  destruct (temp s2) as [x |]; [| discriminate].
  blame H; try (apply as_int_inl in H; discriminate).
  simpl in H. destruct (a =? 0); [| discriminate].
  blame H; try (apply as_int_inl in H; discriminate); try discriminate.
  unfold store in H.
  rewrite has_slot_ok in H by lia. discriminate.
Qed.

(** X17.  Given an array of at least [n] records, a call of [SJF] never ends
    in [EmptyQueue] or in a [NULL] dereference: every peek and every
    removal is behind an [is_empty_q] test.  The failures left are an [int]
    out of range and, for [n] above 5 only, a store past [result_sjf[5]]. *)
Theorem SJF_never_fails : forall fuel p n e,
  (Z.to_nat n <= length p)%nat ->
  SJF fuel p n = Some (inl e) ->
  (e = Overflow \/ e = OutOfBounds) /\ (n <= 5 -> e = Overflow).
Proof.
  intros fuel p n e Hlen H.
  split; [exact (SJF_fails _ _ _ H) |].
  intros Hn.
  destruct (SJF_fails _ _ _ H) as [-> | ->]; [reflexivity |].
  exfalso. unfold SJF in H.
  destruct (SJF_init p n) as [e0 | s0] eqn:Hi.
  - unfold SJF_init in Hi.
    destruct (@load_succeeds p (Z.to_nat n) 0%nat Queue.init_queue)
      as [q0 Hl]; [simpl; exact Hlen |].
    rewrite Hl in Hi. discriminate.
  - apply while_fails_at in H. destruct H as [s1 [Hr [G Hb]]].
    assert (Hs : SJF_state p n s1) by (exists s0; auto).
    destruct (@engine_state_everywhere p n 0 0 s1) as [_ C]; [auto |].
    apply SJF_body_out_of_bounds in Hb. apply Hb. lia.
Qed.

Lemma SJF_never_fails_witness :
  SJF 6 six_jobs 6 = Some (inl OutOfBounds)
  /\ (OutOfBounds = Overflow \/ OutOfBounds = OutOfBounds)
  /\ (6 <= 5 -> OutOfBounds = Overflow).
Proof.
  assert (H : SJF 6 six_jobs 6 = Some (inl OutOfBounds))
    by (vm_compute; reflexivity).
  split; [exact H |].
  apply (@SJF_never_fails 6%nat six_jobs 6 OutOfBounds).
  - simpl. lia.
  - exact H.
Defined.

(** ** Witnesses on concrete states *)

Lemma SJF_dispatches_least_ready_burst_witness :
  exists s s1 s2 x ready',
    bind (SJF_init scenario 3) (ticks SJF_body 3 5) = inr s
    /\ SJF_arrive s = inr s1
    /\ SJF_dispatch s1 = inr s2
    /\ ready s1 = x :: ready'
    /\ processID x = 1
    /\ temp s2 = Some (set_waiting x (time s - arrival x))
    /\ ready s2 = ready'
    /\ Forall (fun z => burst x <= burst z) ready'.
Proof.
  assert (H0 : bind (SJF_init scenario 3) (ticks SJF_body 3 5)
               = inr (mkState []
                        [fresh 1 1 3; fresh 2 2 8] None 5 1
                        [mkProcess 0 0 5 0 0 0 0 0 5 0] 5 0 0 []))
    by (vm_compute; reflexivity).
  destruct (@SJF_dispatches_least_ready_burst scenario 3
              (mkState [] [fresh 1 1 3; fresh 2 2 8] None 5 1
                       [mkProcess 0 0 5 0 0 0 0 0 5 0] 5 0 0 [])
              (mkState [] [fresh 1 1 3; fresh 2 2 8] None 5 1
                       [mkProcess 0 0 5 0 0 0 0 0 5 0] 5 0 0 [])
              (mkState [] [fresh 2 2 8]
                       (Some (set_waiting (fresh 1 1 3) (5 - 1))) 5 1
                       [mkProcess 0 0 5 0 0 0 0 0 5 0] 5 4 0 []))
    as [x [ready' [E [Ht [Er HF]]]]].
  - eexists. split; [reflexivity |].
    apply ticks_reachable with 5%nat. vm_compute. reflexivity.
  - reflexivity.
  - reflexivity.
  - discriminate.
  - reflexivity.
  - simpl in E. injection E as <- <-.
    do 5 eexists. split; [exact H0 |].
    split; [reflexivity |].
    split; [reflexivity |].
    split; [reflexivity |].
    split; [reflexivity |].
    split; [exact Ht |].
    split; [exact Er | exact HF].
Defined.

Lemma FCFS_finished_conserve_witness :
  exists s,
    bind (FCFS_init scenario 3) (ticks FCFS_body 3 9) = inr s
    /\ sum (map reported_turnaround (result s)) = 12
    /\ sum (map reported_turnaround (result s))
       = sum (map waiting (result s)) + sum (map burst (result s))
    /\ total_turnaround s = sum (map reported_turnaround (result s)).
Proof.
  eexists. split; [vm_compute; reflexivity |].
  split; [reflexivity |].
  apply (@FCFS_finished_conserve scenario 3).
  - repeat constructor.
  - eexists. split; [reflexivity |].
    apply ticks_reachable with 9%nat. vm_compute. reflexivity.
Defined.
